(** * guitarmagic: chord seeding script and user-limit context

    A shallow embedding of the two source files of the repository:

    - [scripts/migrate-chord-data.js]: the seed/sync procedure
      [migrateChordData], which upserts [chord_variations] and
      [chord_positions] rows by lookup-then-insert;
    - [contexts/UserContext.js]: the React provider that fetches the
      feature-gate limits and the user profile and derives limits,
      permissions and display values from them.

    JavaScript values are modelled with the types the data model gives them:
    strings as [string], integers as [Z], [null]/[undefined] as [None], an
    object used as a dictionary as a [gmap].  Remote calls are explicit:
    the store is a state that is passed along, and every call leaves an
    event in a trace. *)

From stdpp Require Import gmap strings list fin_maps sorting pretty.
From Stdlib Require Import ZArith Lia Ascii.

Local Open Scope string_scope.
Local Open Scope Z_scope.

(** ** JavaScript primitives used by the sources *)

Module Js.

(** [s.split(sep)] for a one-character separator: the pieces between the
    occurrences of [sep], in order.  The result is never empty
    ([''.split('-')] is [['']]). *)
Fixpoint split (sep : ascii) (s : string) : list string :=
  match s with
  | EmptyString => [EmptyString]
  | String c rest =>
      if Ascii.eqb c sep then EmptyString :: split sep rest
      else match split sep rest with
           | piece :: pieces => String c piece :: pieces
           | [] => [String c EmptyString]
           end
  end.

(** [[...new Set(xs)]]: the distinct elements of [xs] in the order of
    their first occurrence.  [seen] is the set built so far. *)
Fixpoint set_from (seen : list string) (xs : list string) : list string :=
  match xs with
  | [] => []
  | x :: rest =>
      if bool_decide (x ∈ seen) then set_from seen rest
      else x :: set_from (x :: seen) rest
  end.

Definition unique (xs : list string) : list string := set_from [] xs.

(** Truthiness of a possibly absent string: [undefined], [null] and [''] are
    falsy. *)
Definition truthy_string (v : option string) : bool :=
  match v with
  | Some s => negb (String.eqb s EmptyString)
  | None => false
  end.

(** Truthiness of a possibly absent integer: [undefined], [null] and [0] are
    falsy. *)
Definition truthy_number (v : option Z) : bool :=
  match v with
  | Some n => negb (n =? 0)
  | None => false
  end.

(** [v || d] at type string. *)
Definition or_string (v : option string) (d : string) : string :=
  match v with
  | Some s => if truthy_string v then s else d
  | None => d
  end.

(** [v || d] at type number. *)
Definition or_number (v : option Z) (d : Z) : Z :=
  match v with
  | Some n => if truthy_number v then n else d
  | None => d
  end.

(** [v || d] where [v] is an object or absent: every object is truthy. *)
Definition or_object {A : Type} (v : option A) (d : A) : A :=
  match v with
  | Some o => o
  | None => d
  end.

End Js.

(** ** The remote client

    [lib/supabase] only builds the client; what a query resolves to is the
    client library's [{ data, error }] pair. *)

Module Supabase.

(** An error object of the remote client; only its [code] is inspected. *)
Record PgError := { code : string }.

(** The [{ data, error }] pair every awaited query resolves to. *)
Record Response (A : Type) := { data : option A; error : option PgError }.
Arguments data {A} _.
Arguments error {A} _.

(** An awaited call either resolves to a response or throws. *)
Inductive Awaited (A : Type) :=
| Resolved (r : Response A)
| Thrown (e : PgError).
Arguments Resolved {A} r.
Arguments Thrown {A} e.

(** The code of the "no rows" answer of [.single()]. *)
Definition PGRST116 : string := "PGRST116".

End Supabase.

(** ** contexts/UserContext.js *)

Module UserContext.
Import Supabase.

(** The part of [setting_value] of the [feature_gates] row that the
    resolver reads; an absent or [null] key is [None]. *)
Record SettingValue := {
  sv_daily_search_limits : option (gmap string Z);
  sv_daily_watch_time_limits : option (gmap string Z);
  sv_favorite_limits : option (gmap string Z)
}.

Record SettingsRow := { setting_value : option SettingValue }.

(** The [dailyLimits] state object. *)
Record DailyLimits := {
  daily_search_limits : option (gmap string Z);
  daily_watch_time_limits : option (gmap string Z);
  favorite_limits : option (gmap string Z)
}.

(** A [user_profiles] row; a [null] column is [None]. *)
Record Profile := {
  id : option string;
  email : option string;
  full_name : option string;
  subscription_tier : option string;
  subscription_status : option string;
  daily_searches_used : option Z;
  last_search_reset : option string
}.

(** The [user] of the auth context. *)
Record User := { user_id : option string }.

Definition tiers (freebird roadie hero : Z) : gmap string Z :=
  <["freebird" := freebird]> (<["roadie" := roadie]> (<["hero" := hero]> ∅)).

Definition default_daily_search_limits : gmap string Z := tiers 8 24 100.
Definition default_daily_watch_time_limits : gmap string Z := tiers 60 180 480.
Definition default_favorite_limits : gmap string Z := tiers 0 12 (-1).

Definition default_limits : DailyLimits :=
  {| daily_search_limits := Some default_daily_search_limits;
     daily_watch_time_limits := Some default_daily_watch_time_limits;
     favorite_limits := Some default_favorite_limits |}.

(** [fetchDailyLimits]: the new value of the [dailyLimits] state, given the
    outcome of the awaited [admin_settings] query and the state before. *)
Definition fetchDailyLimits (fetched : Awaited SettingsRow)
    (dailyLimits : option DailyLimits) : option DailyLimits :=
  match fetched with
  | Thrown _ => Some default_limits
  | Resolved r =>
      match error r with
      | Some _ => Some default_limits
      | None =>
          match data r ≫= setting_value with
          | Some sv =>
              Some {| daily_search_limits :=
                        Some (Js.or_object (sv_daily_search_limits sv)
                                default_daily_search_limits);
                      daily_watch_time_limits :=
                        Some (Js.or_object (sv_daily_watch_time_limits sv)
                                default_daily_watch_time_limits);
                      favorite_limits :=
                        Some (Js.or_object (sv_favorite_limits sv)
                                default_favorite_limits) |}
          | None => dailyLimits
          end
      end
  end.

(** [mapping?.[tier]] *)
Definition entry (mapping : option (gmap string Z)) (tier : string) : option Z :=
  mapping ≫= (fun m => m !! tier).

(** [profile?.subscription_tier] *)
Definition tier_of (profile : option Profile) : option string :=
  profile ≫= subscription_tier.

Definition getDailySearchLimit (dailyLimits : option DailyLimits)
    (profile : option Profile) : Z :=
  match dailyLimits, tier_of profile with
  | Some limits, Some tier =>
      if Js.truthy_string (Some tier)
      then Js.or_number (entry (daily_search_limits limits) tier) 0
      else 0
  | _, _ => 0
  end.

(** [profile?.daily_searches_used || 0] *)
Definition dailySearchesUsed (profile : option Profile) : Z :=
  Js.or_number (profile ≫= daily_searches_used) 0.

Definition checkDailySearchLimit (dailyLimits : option DailyLimits)
    (profile : option Profile) : bool :=
  let limit := getDailySearchLimit dailyLimits profile in
  let used := dailySearchesUsed profile in
  if limit =? -1 then true else used <? limit.

Definition getDailyWatchTimeLimit (dailyLimits : option DailyLimits)
    (profile : option Profile) : Z :=
  match dailyLimits, tier_of profile with
  | Some limits, Some tier =>
      if Js.truthy_string (Some tier)
      then Js.or_number (entry (daily_watch_time_limits limits) tier) 60
      else 60
  | _, _ => 60
  end.

Definition getFavoriteLimit (dailyLimits : option DailyLimits)
    (profile : option Profile) : Z :=
  match dailyLimits, tier_of profile with
  | Some limits, Some tier =>
      if Js.truthy_string (Some tier)
      then Js.or_number (entry (favorite_limits limits) tier) 0
      else 0
  | _, _ => 0
  end.

(** [profile?.email?.split('@')[0]] *)
Definition email_local_part (profile : option Profile) : option string :=
  (profile ≫= email) ≫= (fun e => head (Js.split "@" e)).

(** [userName: profile?.full_name || profile?.email?.split('@')[0] || 'User'] *)
Definition userName (profile : option Profile) : string :=
  Js.or_string (profile ≫= full_name)
    (Js.or_string (email_local_part profile) "User").

(** *** The daily reset effect *)

(** The two readings of the [Date] library the effect takes:
    [new Date(s).toDateString()] for a stored value [s], and
    [new Date().toDateString()].  A date string names a calendar day and
    carries no time of day. *)
Record Calendar := {
  dateStringOf : string → string;
  todayString : string
}.

(** The remote calls the profile flow issues. *)
Inductive RemoteCall :=
| Rpc (name : string)
| SelectProfile (userId : string).

Global Instance RemoteCall_eq_dec : EqDecision RemoteCall.
Proof. solve_decision. Defined.

(** [fetchUserProfile(userId)]: the query it sends. *)
Definition fetchUserProfile (userId : option string) : list RemoteCall :=
  match userId with
  | Some i => if Js.truthy_string userId then [SelectProfile i] else []
  | None => []
  end.

Definition refreshProfile (profile : option Profile) : list RemoteCall :=
  fetchUserProfile (profile ≫= id).

(** [resetDailySearchCount]: the calls it makes, given what the awaited
    procedure call resolves to. *)
Definition resetDailySearchCount (user : option User)
    (profile : option Profile) (answer : Awaited unit) : list RemoteCall :=
  if negb (Js.truthy_string (user ≫= user_id)) then []
  else
    Rpc "reset_daily_searches" ::
    match answer with
    | Resolved r =>
        match error r with
        | None => refreshProfile profile
        | Some _ => []
        end
    | Thrown _ => []
    end.

(** The body of the reset effect. *)
Definition dailyResetEffect (cal : Calendar) (user : option User)
    (profile : option Profile) (answer : Awaited unit) : list RemoteCall :=
  match profile ≫= last_search_reset with
  | Some lastReset =>
      if Js.truthy_string (Some lastReset)
      then
        if bool_decide (dateStringOf cal lastReset ≠ todayString cal)
        then resetDailySearchCount user profile answer
        else []
      else []
  | None => []
  end.

(** [useEffect(effect, [dep])]: the effect runs after the first render and
    after each render whose [dep] differs from that of the render before.
    [previous] is [None] before the first render.  ([undefined] and [null]
    are both [None] here; the effect does nothing for either.) *)
Definition effect_due (previous : option (option string))
    (dep : option string) : bool :=
  match previous with
  | None => true
  | Some before => negb (bool_decide (before = dep))
  end.

(** One render of the provider as far as the reset effect goes: the calls
    issued after it, and the dependency remembered for the next render. *)
Definition afterRender (cal : Calendar) (user : option User)
    (profile : option Profile) (answer : Awaited unit)
    (previous : option (option string))
    : list RemoteCall * option (option string) :=
  let dep := profile ≫= last_search_reset in
  (if effect_due previous dep then dailyResetEffect cal user profile answer
   else [],
   Some dep).

Definition reset_triggered (calls : list RemoteCall) : bool :=
  bool_decide (Rpc "reset_daily_searches" ∈ calls).

(** *** Values the provider exposes *)

(** [profile?.subscription_status] *)
Definition status_of (profile : option Profile) : option string :=
  profile ≫= subscription_status.

(** [isPremium: profile?.subscription_tier === 'premium'] *)
Definition isPremium (profile : option Profile) : bool :=
  bool_decide (tier_of profile = Some "premium").

(** [hasPlanAccess: !!(profile?.subscription_tier &&
      profile?.subscription_status === 'active')] *)
Definition hasPlanAccess (profile : option Profile) : bool :=
  Js.truthy_string (tier_of profile) &&
  bool_decide (status_of profile = Some "active").

(** [planType: profile?.subscription_tier || 'freebird'] *)
Definition planType (profile : option Profile) : string :=
  Js.or_string (tier_of profile) "freebird".

(** [planStatus: profile?.subscription_status || null] *)
Definition planStatus (profile : option Profile) : option string :=
  if Js.truthy_string (status_of profile) then status_of profile else None.

(** [canSearch: profile?.subscription_tier !== 'freebird' &&
      profile?.subscription_status === 'active'] *)
Definition canSearch (profile : option Profile) : bool :=
  negb (bool_decide (tier_of profile = Some "freebird")) &&
  bool_decide (status_of profile = Some "active").

(** [userEmail: profile?.email] *)
Definition userEmail (profile : option Profile) : option string :=
  profile ≫= email.

(** [searchLimit: getDailySearchLimit()] *)
Definition searchLimit (dailyLimits : option DailyLimits)
    (profile : option Profile) : Z :=
  getDailySearchLimit dailyLimits profile.

(** *** Profile state *)

(** The [profile] and [loading] states of the provider. *)
Record ProfileState := {
  st_profile : option Profile;
  st_loading : bool
}.

(** [fetchUserProfile(userId)]: the states once the awaited query has
    settled.  Without a [userId] nothing is touched; otherwise [loading] is
    set, the profile is replaced only by a row that came without an error,
    and the [finally] block clears [loading]. *)
Definition fetchUserProfile_settled (userId : option string)
    (fetched : Awaited Profile) (st : ProfileState) : ProfileState :=
  if negb (Js.truthy_string userId) then st
  else
    match fetched with
    | Thrown _ => {| st_profile := st_profile st; st_loading := false |}
    | Resolved r =>
        match error r with
        | Some _ => {| st_profile := st_profile st; st_loading := false |}
        | None =>
            match data r with
            | Some row => {| st_profile := Some row; st_loading := false |}
            | None => {| st_profile := st_profile st; st_loading := false |}
            end
        end
    end.

(** The effect on [user]: fetch the profile of a user with an id, clear the
    profile otherwise.  The calls issued and the states afterwards. *)
Definition userEffect (user : option User) (fetched : Awaited Profile)
    (st : ProfileState) : list RemoteCall * ProfileState :=
  if Js.truthy_string (user ≫= user_id)
  then (fetchUserProfile (user ≫= user_id),
        fetchUserProfile_settled (user ≫= user_id) fetched st)
  else ([], {| st_profile := None; st_loading := st_loading st |}).

(** The calls of the profile flow, with the parameter of a procedure that
    takes one. *)
Inductive ProfileCall :=
| RpcWith (name : string) (user_id_param : string)
| Plain (call : RemoteCall).

Global Instance ProfileCall_eq_dec : EqDecision ProfileCall.
Proof. solve_decision. Defined.


(** One render together with what the reset effect reads after it: the
    calendar at that moment and the answer its procedure call would get. *)
Record Render := {
  r_calendar : Calendar;
  r_user : option User;
  r_profile : option Profile;
  r_answer : Awaited unit
}.

(** The calls the reset effect issues over a sequence of renders. *)
Fixpoint afterRenders (renders : list Render)
    (previous : option (option string)) : list RemoteCall :=
  match renders with
  | [] => []
  | r :: rest =>
      let '(calls, remembered) :=
        afterRender (r_calendar r) (r_user r) (r_profile r) (r_answer r) previous in
      (calls ++ afterRenders rest remembered)%list
  end.

End UserContext.

(** ** scripts/migrate-chord-data.js *)

Module Migrate.
Import Supabase.

Record ChordCaption := {
  chord_name : string;
  fret_position : string;
  start_time : string;
  end_time : string
}.

Definition chordCaptionData : list ChordCaption := [
  {| chord_name := "D#"; fret_position := "Pos2"; start_time := "0:09"; end_time := "0:19" |};
  {| chord_name := "D#"; fret_position := "Open"; start_time := "0:09"; end_time := "0:19" |};
  {| chord_name := "C"; fret_position := "Open"; start_time := "0:21"; end_time := "1:19" |};
  {| chord_name := "F7sus4"; fret_position := "Pos6"; start_time := "0:29"; end_time := "1:19" |};
  {| chord_name := "D"; fret_position := "Open"; start_time := "1:09"; end_time := "2:19" |};
  {| chord_name := "F7sus4"; fret_position := "Pos6"; start_time := "3:09"; end_time := "3:19" |};
  {| chord_name := "D"; fret_position := "Open"; start_time := "3:09"; end_time := "3:19" |};
  {| chord_name := "A"; fret_position := "Pos1"; start_time := "4:22"; end_time := "4:32" |};
  {| chord_name := "A#"; fret_position := "Pos3v2"; start_time := "4:24"; end_time := "4:34" |}
].

(** A [chord_variations] row. *)
Record ChordVariation := {
  v_id : nat;
  v_chord_name : string
}.

(** The fields [migrateChordData] writes into a new [chord_positions]
    row.  [chord_variation_id] is [chordVariations[chordName]], which is
    [undefined] ([None]) for a name the mapping does not hold. *)
Record PositionFields := {
  chord_variation_id : option nat;
  p_chord_name : string;
  p_fret_position : string;
  chord_position_full_name : string;
  aws_svg_url_light : string;
  aws_svg_url_dark : string
}.

(** A [chord_positions] row. *)
Record ChordPosition := {
  p_id : nat;
  p_fields : PositionFields
}.

Global Instance PositionFields_eq_dec : EqDecision PositionFields.
Proof. solve_decision. Defined.

(** The requests the script sends. *)
Inductive Request :=
| SelectVariation (chordName : string)
| InsertVariation (chordName : string)
| SelectPosition (chordName fretPosition : string)
| InsertPosition (fields : PositionFields)
| SelectAllVariations
| SelectAllPositions.

Global Instance Request_eq_dec : EqDecision Request.
Proof. solve_decision. Defined.

(** A request together with the error it was answered with, if any. *)
Record Event := { request : Request; failure : option PgError }.

(** Modelled from the spec: the remote store behind [supabase], which is
    not part of the sources.  It holds the two tables, a key generator per
    table, the errors that the coming calls will be answered with
    ([pending]: one entry per call, [Some e] for a call that fails with
    [e]; past its end every call is served), and the history of the calls
    made so far. *)
Record Store := {
  chord_variations : list ChordVariation;
  chord_positions : list ChordPosition;
  next_variation_id : nat;
  next_position_id : nat;
  pending : list (option PgError);
  trace : list Event
}.

Definition empty_store : Store :=
  {| chord_variations := []; chord_positions := [];
     next_variation_id := 1; next_position_id := 1;
     pending := []; trace := [] |}.

(** *** Remote calls *)

(** Computations of the script: they read and change the store, and either
    return a value or throw. *)
Inductive Exception :=
| Raised (e : PgError)
| TypeError (what : string).

Inductive Result (A : Type) :=
| Ok (a : A)
| Throw (x : Exception).
Arguments Ok {A} a.
Arguments Throw {A} x.

Definition M (A : Type) : Type := Store → Result A * Store.

Definition ret {A} (a : A) : M A := fun s => (Ok a, s).

Definition throw {A} (x : Exception) : M A := fun s => (Throw x, s).

Definition bind {A B} (c : M A) (k : A → M B) : M B :=
  fun s =>
    match c s with
    | (Ok a, s') => k a s'
    | (Throw x, s') => (Throw x, s')
    end.

Notation "'let*' x ':=' c 'in' k" := (bind c (fun x => k))
  (at level 10, x name, c at level 100, k at level 200, only parsing).

(** [for (const x of xs) body], threading what the body updates. *)
Fixpoint for_of {A S} (xs : list A) (body : S → A → M S) (acc : S) : M S :=
  match xs with
  | [] => ret acc
  | x :: rest => let* acc' := body acc x in for_of rest body acc'
  end.

Definition record (req : Request) (err : option PgError) (s : Store) : Store :=
  {| chord_variations := chord_variations s;
     chord_positions := chord_positions s;
     next_variation_id := next_variation_id s;
     next_position_id := next_position_id s;
     pending := tail (pending s);
     trace := trace s ++ [{| request := req; failure := err |}] |}.

(** One awaited call: answered with the pending error if there is one, and
    served from the tables otherwise. *)
Definition call {A} (req : Request) (serve : Store → Response A * Store) :
    Store → Response A * Store :=
  fun s =>
    match head (pending s) with
    | Some (Some e) => ({| data := None; error := Some e |}, record req (Some e) s)
    | _ => let '(r, s') := serve s in (r, record req (error r) s')
    end.

(** [.single()]: the row if exactly one matches, and the error [PGRST116]
    for none (and, as the client has it, for several). *)
Definition single {A} (rows : list A) : Response A :=
  match rows with
  | [row] => {| data := Some row; error := None |}
  | _ => {| data := None; error := Some {| code := PGRST116 |} |}
  end.

(** [.eq('chord_name', n)] on [chord_variations] *)
Definition named (chordName : string) (v : ChordVariation) : Prop :=
  v_chord_name v = chordName.

(** [.eq('chord_name', n).eq('fret_position', f)] on [chord_positions] *)
Definition placed (chordName fretPosition : string) (p : ChordPosition) : Prop :=
  p_chord_name (p_fields p) = chordName ∧ p_fret_position (p_fields p) = fretPosition.

Global Instance named_dec chordName v : Decision (named chordName v).
Proof. unfold named. apply _. Defined.

Global Instance placed_dec chordName fretPosition p :
  Decision (placed chordName fretPosition p).
Proof. unfold placed. apply _. Defined.

(** [from('chord_variations').select('id').eq('chord_name', n).single()] *)
Definition select_variation (chordName : string) : Store → Response nat * Store :=
  call (SelectVariation chordName)
    (fun s => (single (map v_id (filter (named chordName)
                                   (chord_variations s))), s)).

(** [from('chord_variations').insert([{ chord_name }]).select().single()] *)
Definition insert_variation (chordName : string) :
    Store → Response ChordVariation * Store :=
  call (InsertVariation chordName)
    (fun s =>
       let row := {| v_id := next_variation_id s; v_chord_name := chordName |} in
       ({| data := Some row; error := None |},
        {| chord_variations := chord_variations s ++ [row];
           chord_positions := chord_positions s;
           next_variation_id := S (next_variation_id s);
           next_position_id := next_position_id s;
           pending := pending s;
           trace := trace s |})).

(** [from('chord_positions').select('id').eq('chord_name', n)
      .eq('fret_position', f).single()] *)
Definition select_position (chordName fretPosition : string) :
    Store → Response nat * Store :=
  call (SelectPosition chordName fretPosition)
    (fun s => (single (map p_id (filter (placed chordName fretPosition)
                                   (chord_positions s))), s)).

(** [from('chord_positions').insert([fields]).select().single()] *)
Definition insert_position (fields : PositionFields) :
    Store → Response ChordPosition * Store :=
  call (InsertPosition fields)
    (fun s =>
       let row := {| p_id := next_position_id s; p_fields := fields |} in
       ({| data := Some row; error := None |},
        {| chord_variations := chord_variations s;
           chord_positions := chord_positions s ++ [row];
           next_variation_id := next_variation_id s;
           next_position_id := S (next_position_id s);
           pending := pending s;
           trace := trace s |})).

(** [.order('chord_name')]: ascending by chord name.  The order on text is
    the store's; it is taken to be the order of the character codes. *)
Definition by_chord_name (v1 v2 : ChordVariation) : Prop :=
  String.le (v_chord_name v1) (v_chord_name v2).

Global Instance by_chord_name_dec : RelDecision by_chord_name.
Proof. intros v1 v2. unfold by_chord_name. apply _. Defined.

(** [.order('chord_name, fret_position')]: ascending by chord name, and by
    fret position among the rows of one chord name. *)
Definition by_name_and_position (p1 p2 : ChordPosition) : Prop :=
  if decide (p_chord_name (p_fields p1) = p_chord_name (p_fields p2))
  then String.le (p_fret_position (p_fields p1)) (p_fret_position (p_fields p2))
  else String.le (p_chord_name (p_fields p1)) (p_chord_name (p_fields p2)).

Global Instance by_name_and_position_dec : RelDecision by_name_and_position.
Proof. intros p1 p2. unfold by_name_and_position. case_decide; apply _. Defined.

(** [from('chord_variations').select('*').order('chord_name')] *)
Definition select_all_variations : Store → Response (list ChordVariation) * Store :=
  call SelectAllVariations
    (fun s => ({| data := Some (merge_sort by_chord_name (chord_variations s));
                  error := None |}, s)).

(** [from('chord_positions').select('*').order('chord_name, fret_position')] *)
Definition select_all_positions : Store → Response (list ChordPosition) * Store :=
  call SelectAllPositions
    (fun s => ({| data := Some (merge_sort by_name_and_position (chord_positions s));
                  error := None |}, s)).

(** [await query]: the response as a value of the computation. *)
Definition await {A} (query : Store → Response A * Store) : M (Response A) :=
  fun s => let '(r, s') := query s in (Ok r, s').

(** *** The procedure *)

(** [if (checkError && checkError.code !== 'PGRST116') throw checkError] *)
Definition check {A} (r : Response A) : M unit :=
  match error r with
  | Some checkError =>
      if bool_decide (code checkError ≠ PGRST116) then throw (Raised checkError)
      else ret tt
  | None => ret tt
  end.

(** The body of the first loop (step 2).  [chordVariations] is an object
    used as a dictionary; chord names are taken not to be names of members
    of [Object.prototype]. *)
Definition upsert_variation (chordVariations : gmap string nat)
    (chordName : string) : M (gmap string nat) :=
  let* existingVariation := await (select_variation chordName) in
  let* _ := check existingVariation in
  let* variationId :=
    match data existingVariation with
    | Some existing => ret existing
    | None =>
        let* newVariation := await (insert_variation chordName) in
        match error newVariation with
        | Some createError => throw (Raised createError)
        | None =>
            match data newVariation with
            | Some created => ret (v_id created)
            | None => throw (TypeError "newVariation is null")
            end
        end
    end in
  ret (<[chordName := variationId]> chordVariations).

(** [`${item.chord_name}-${item.fret_position}`] *)
Definition composite (item : ChordCaption) : string :=
  chord_name item ++ "-" ++ fret_position item.

(** [const [chordName, fretPosition] = chordPosition.split('-')]: the first
    two pieces.  A key made by [composite] has at least two pieces; a piece
    that is missing would read [undefined]. *)
Definition components (chordPosition : string) : string * string :=
  match Js.split "-" chordPosition with
  | chordName :: fretPosition :: _ => (chordName, fretPosition)
  | [chordName] => (chordName, "undefined")
  | [] => ("undefined", "undefined")
  end.

Definition new_position (variationId : option nat)
    (chordName fretPosition : string) : PositionFields :=
  let chordPositionFullName := chordName ++ "-" ++ fretPosition in
  {| chord_variation_id := variationId;
     p_chord_name := chordName;
     p_fret_position := fretPosition;
     chord_position_full_name := chordPositionFullName;
     aws_svg_url_light :=
       "https://example.com/svg/" ++ chordPositionFullName ++ "-light.svg";
     aws_svg_url_dark :=
       "https://example.com/svg/" ++ chordPositionFullName ++ "-dark.svg" |}.

(** The body of the second loop (step 3). *)
Definition upsert_position (chordVariations : gmap string nat)
    (_ : unit) (chordPosition : string) : M unit :=
  let '(chordName, fretPosition) := components chordPosition in
  let variationId := chordVariations !! chordName in
  let* existingPosition := await (select_position chordName fretPosition) in
  let* _ := check existingPosition in
  match data existingPosition with
  | Some _ => ret tt
  | None =>
      let* newPosition :=
        await (insert_position (new_position variationId chordName fretPosition)) in
      match error newPosition with
      | Some createError => throw (Raised createError)
      | None => ret tt
      end
  end.

(** What step 4 prints: the two counts and the names read back. *)
Record Report := {
  variations_count : nat;
  positions_count : nat;
  variations_listed : list string;
  positions_listed : list string
}.

(** Step 4.  The two reads are not checked for errors; a failed read leaves
    [null], whose [length] cannot be taken. *)
Definition verify : M Report :=
  let* variations := await select_all_variations in
  let* positions := await select_all_positions in
  match data variations with
  | None => throw (TypeError "variations is null")
  | Some vs =>
      match data positions with
      | None => throw (TypeError "positions is null")
      | Some ps =>
          ret {| variations_count := length vs;
                 positions_count := length ps;
                 variations_listed := map v_chord_name vs;
                 positions_listed :=
                   map (fun p => chord_position_full_name (p_fields p)) ps |}
      end
  end.

(** The body of the [try] block, for a given list of captions. *)
Definition migration (captions : list ChordCaption) : M Report :=
  let uniqueChordNames := Js.unique (map chord_name captions) in
  let* chordVariations := for_of uniqueChordNames upsert_variation ∅ in
  let uniqueChordPositions := Js.unique (map composite captions) in
  let* _ := for_of uniqueChordPositions (upsert_position chordVariations) tt in
  verify.

(** How a run ends: the report is printed, or the exception caught by the
    [catch] block is. *)
Inductive Outcome :=
| Completed (report : Report)
| Failed (x : Exception).

(** The whole procedure with its [try]/[catch], for a given list of captions. *)
Definition migrate (captions : list ChordCaption) (s : Store) : Outcome * Store :=
  match migration captions s with
  | (Ok report, s') => (Completed report, s')
  | (Throw x, s') => (Failed x, s')
  end.

Definition migrateChordData : Store → Outcome * Store := migrate chordCaptionData.

(** The events a run added to the history of [s]. *)
Definition events_since (s s' : Store) : list Event :=
  drop (length (trace s)) (trace s').

Definition is_insert (ev : Event) : bool :=
  match request ev with
  | InsertVariation _ | InsertPosition _ => true
  | _ => false
  end.

End Migrate.

(** * Notions used to state the properties *)

(** The specification's wording for [s.split(sep)[0]]: the part of [s]
    before the first [sep] (all of [s] when there is none). *)
Fixpoint before_first (sep : ascii) (s : string) : string :=
  match s with
  | EmptyString => EmptyString
  | String c rest =>
      if Ascii.eqb c sep then EmptyString else String c (before_first sep rest)
  end.

Module UserContextSpec.
Import Supabase UserContext.

(** A sample profile with a given tier and used count. *)
Definition profile_of (tier : string) (used : Z) : Profile :=
  {| id := Some "u1"; email := Some "ann@example.com"; full_name := Some "Ann";
     subscription_tier := Some tier; subscription_status := Some "active";
     daily_searches_used := Some used; last_search_reset := Some "2024-05-01" |}.

(** The stored watch-time entry for the profile's tier, if the limits are
    loaded and the tier is set. *)
Definition watch_time_entry (dailyLimits : option DailyLimits)
    (profile : option Profile) : option Z :=
  limits ← dailyLimits; tier ← tier_of profile;
  entry (daily_watch_time_limits limits) tier.

(** The row exists but its [setting_value] is [null]; the query reports no
    error. *)
Definition row_without_setting_value : Awaited SettingsRow :=
  Resolved {| data := Some {| setting_value := None |}; error := None |}.

(** The fallback chain of [userName] in the words of its description: the
    full name when non-empty, otherwise the part of the email before the
    first [@] when there is an email, otherwise [User]. *)
Definition stated_userName (profile : option Profile) : string :=
  if Js.truthy_string (profile ≫= full_name)
  then default EmptyString (profile ≫= full_name)
  else match profile ≫= email with
       | Some e => before_first "@" e
       | None => "User"
       end.

(** A profile whose email has nothing before the [@]. *)
Definition profile_without_local_part : Profile :=
  {| id := Some "u2"; email := Some "@example.com"; full_name := None;
     subscription_tier := Some "roadie"; subscription_status := Some "active";
     daily_searches_used := Some 0; last_search_reset := None |}.

(** A calendar for timestamps written [YYYY-MM-DDThh:mm:ss]: the date string
    is the day part. *)
Definition iso_calendar (today : string) : Calendar :=
  {| dateStringOf := fun s => String.substring 0 10 s; todayString := today |}.

Definition signed_in : option User := Some {| user_id := Some "u1" |}.

Definition rpc_ok : Awaited unit := Resolved {| data := None; error := None |}.

Definition profile_reset_at (stamp : string) : option Profile :=
  Some {| id := Some "u1"; email := Some "ann@example.com"; full_name := Some "Ann";
          subscription_tier := Some "roadie"; subscription_status := Some "active";
          daily_searches_used := Some 3; last_search_reset := Some stamp |}.


End UserContextSpec.

Module DateSpec.
Import Supabase UserContext UserContextSpec.

(** The [Date] library behind the two readings of a [Calendar]: the instant a
    text denotes, in milliseconds since the epoch ([None] for an invalid
    date), the instant of now, and the offset of local time from UTC at an
    instant. *)
Record Clock := {
  Date_parse : string → option Z;
  Date_now : Z;
  utcOffset : Z → Z
}.

Definition msPerDay : Z := 86400000.

(** The local calendar day an instant falls on, counted from the epoch; the
    time of day is dropped. *)
Definition localDay (clock : Clock) (t : Z) : Z :=
  (t + utcOffset clock t) `div` msPerDay.

Definition today (clock : Clock) : Z := localDay clock (Date_now clock).


(** The calendar of a clock, naming each day by its number. *)
Definition calendar_of (clock : Clock) : Calendar :=
  {| dateStringOf := λ s,
       match Date_parse clock s with
       | Some t => "Day " +:+ pretty (localDay clock t)
       | None => "Invalid Date"
       end;
     todayString := "Day " +:+ pretty (today clock) |}.

(** A browser five hours behind UTC on 2 May 2024 at 15:00 UTC (10:00 local
    time).  A text with a time and an offset denotes that instant; a
    date-only text denotes midnight UTC of its day. *)
Definition behind_utc : Clock :=
  {| Date_parse := λ s,
       if decide (s = "2024-05-02T09:30:00-05:00") then Some 1714660200000
       else if decide (s = "2024-05-01T22:10:00-05:00") then Some 1714619400000
       else if decide (s = "2024-05-02") then Some 1714608000000
       else None;
     Date_now := 1714662000000;
     utcOffset := λ _, -18000000 |}.

End DateSpec.

Module MigrateSpec.
Import Supabase Migrate.

(** The lookups of the two loops. *)
Definition is_lookup (req : Request) : bool :=
  match req with
  | SelectVariation _ | SelectPosition _ _ => true
  | _ => false
  end.

(** The lookups and inserts of the two loops (the reads of step 4 are not
    upserts). *)
Definition is_upsert (req : Request) : bool :=
  match req with
  | SelectAllVariations | SelectAllPositions => false
  | _ => true
  end.

(** [ins] is the insert for the item that [sel] looked up. *)
Definition inserts_for (sel ins : Request) : Prop :=
  match sel, ins with
  | SelectVariation n, InsertVariation n' => n' = n
  | SelectPosition n f, InsertPosition fields =>
      p_chord_name fields = n ∧ p_fret_position fields = f
  | _, _ => False
  end.

(** The name, respectively the fields, that an acknowledged insert added. *)
Definition inserted_variation (ev : Event) : option string :=
  match request ev, failure ev with
  | InsertVariation n, None => Some n
  | _, _ => None
  end.

Definition inserted_position (ev : Event) : option PositionFields :=
  match request ev, failure ev with
  | InsertPosition fields, None => Some fields
  | _, _ => None
  end.

Definition variation_names (s : Store) : list string :=
  map v_chord_name (chord_variations s).

Definition position_pair (p : ChordPosition) : string * string :=
  (p_chord_name (p_fields p), p_fret_position (p_fields p)).

Definition position_pairs (s : Store) : list (string * string) :=
  map position_pair (chord_positions s).

(** No error is pending: every call is served from the tables. *)
Definition quiet (s : Store) : Prop := pending s = [].

(** The uniqueness invariants of the data model. *)
Definition consistent (s : Store) : Prop :=
  NoDup (variation_names s) ∧ NoDup (position_pairs s).

Fixpoint contains (c : ascii) (s : string) : bool :=
  match s with
  | EmptyString => false
  | String c' rest => Ascii.eqb c' c || contains c rest
  end.

(** Neither the chord name nor the fret position holds a dash. *)
Definition dashless (item : ChordCaption) : Prop :=
  contains "-" (chord_name item) = false ∧ contains "-" (fret_position item) = false.

(** Two captions, one of a chord whose name holds a dash. *)
Definition dashed_captions : list ChordCaption := [
  {| chord_name := "Bm7"; fret_position := "Open"; start_time := "0:01"; end_time := "0:05" |};
  {| chord_name := "Bm7-5"; fret_position := "Open"; start_time := "0:05"; end_time := "0:09" |}
].

Definition the_dashed_caption : ChordCaption :=
  {| chord_name := "Bm7-5"; fret_position := "Open"; start_time := "0:05"; end_time := "0:09" |}.

(** The exception a computation ended with, if any. *)
Definition thrown {A} (r : Result A) : option Exception :=
  match r with Ok _ => None | Throw x => Some x end.

Definition failure_of (o : Outcome) : option Exception :=
  match o with Completed _ => None | Failed x => Some x end.

(** A lookup answered with the "no rows" code is followed by the insert for
    the item it looked up. *)
Definition sentinel_then_insert (evs : list Event) : Prop :=
  ∀ i ev e, evs !! i = Some ev → is_lookup (request ev) = true →
    failure ev = Some e → code e = PGRST116 →
    ∃ ev', evs !! S i = Some ev' ∧ inserts_for (request ev) (request ev').

(** Any other error of a lookup or an insert is the last event, and the run
    ends with that error. *)
Definition error_aborts (evs : list Event) (x : option Exception) : Prop :=
  ∀ i ev e, evs !! i = Some ev → is_upsert (request ev) = true →
    failure ev = Some e →
    (is_lookup (request ev) = true → code e ≠ PGRST116) →
    x = Some (Raised e) ∧ length evs = S i.

(** The only answers with an error among [evs] are lookups answered with the
    "no rows" code. *)
Definition only_not_found (evs : list Event) : Prop :=
  ∀ ev e, ev ∈ evs → failure ev = Some e →
    is_lookup (request ev) = true ∧ code e = PGRST116.

(** Nothing is rolled back: the rows of [s] are still there, in place, and
    after them one row for each acknowledged insert among [evs]. *)
Definition keeps_rows (s : Store) (evs : list Event) (s' : Store) : Prop :=
  chord_variations s `prefix_of` chord_variations s' ∧
  chord_positions s `prefix_of` chord_positions s' ∧
  variation_names s' = (variation_names s ++ omap inserted_variation evs)%list ∧
  map p_fields (chord_positions s') =
    (map p_fields (chord_positions s) ++ omap inserted_position evs)%list.

(** The three properties, for a computation started in any store. *)
Definition obeys {A} (c : M A) : Prop :=
  ∀ s, ∃ evs, trace (c s).2 = (trace s ++ evs)%list ∧
    sentinel_then_insert evs ∧ error_aborts evs (thrown (c s).1) ∧
    keeps_rows s evs (c s).2.

Definition e500 : PgError := {| code := "500" |}.

(** An empty store whose call number [n] (from 0) fails with code [500]. *)
Definition flaky (n : nat) : Store :=
  {| chord_variations := []; chord_positions := [];
     next_variation_id := 1; next_position_id := 1;
     pending := replicate n None ++ [Some e500]; trace := [] |}.

(** An event that is not an insert. *)
Definition no_insert (ev : Event) : Prop := is_insert ev = false.

(** The fields of the row that the second loop inserts for key [k], given
    the mapping [m] built by the first loop. *)
Definition fields_for (m : gmap string nat) (k : string) : PositionFields :=
  new_position (m !! (components k).1) (components k).1 (components k).2.

End MigrateSpec.

Module ProviderSpec.
Import Supabase UserContext UserContextSpec.

(** The stored entry of a category for the profile's tier: absent while the
    limits are unloaded, the tier unset or empty, or the tier not listed. *)
Definition tier_entry (category : DailyLimits → option (gmap string Z))
    (dailyLimits : option DailyLimits) (profile : option Profile) : option Z :=
  limits ← dailyLimits; tier ← tier_of profile;
  if Js.truthy_string (Some tier) then entry (category limits) tier else None.

(** All three categories of loaded limits are there. *)
Definition complete (dailyLimits : option DailyLimits) : Prop :=
  ∀ limits, dailyLimits = Some limits →
    is_Some (daily_search_limits limits) ∧
    is_Some (daily_watch_time_limits limits) ∧
    is_Some (favorite_limits limits).

Definition reset_call : RemoteCall := Rpc "reset_daily_searches".

Definition profile_fetched (row : Profile) : Awaited Profile :=
  Resolved {| data := Some row; error := None |}.

Definition fetch_refused : Awaited Profile :=
  Resolved {| data := None; error := Some {| code := "42501" |} |}.

Definition rpc_refused : Awaited unit :=
  Resolved {| data := None; error := Some {| code := "42501" |} |}.


Definition signed_out : option User := Some {| user_id := None |}.

Definition loaded (row : Profile) : ProfileState :=
  {| st_profile := Some row; st_loading := false |}.

Definition stale_render (today : string) : Render :=
  {| r_calendar := iso_calendar today; r_user := signed_in;
     r_profile := profile_reset_at "2024-05-01T22:10:00"; r_answer := rpc_refused |}.

End ProviderSpec.

Module SeedSpec.
Import Supabase Migrate MigrateSpec.

(** Two captions whose keys collide: [A-B/C] and [A/B-C]. *)
Definition caption (chordName fretPosition : string) : ChordCaption :=
  {| chord_name := chordName; fret_position := fretPosition;
     start_time := "0:00"; end_time := "0:01" |}.

(** The same chord and position at another time. *)
Definition later_caption : ChordCaption :=
  {| chord_name := "D"; fret_position := "Open";
     start_time := "3:09"; end_time := "3:19" |}.

(** Why a run failed: with a store error, the last call is a lookup or an
    insert that was answered with it (and not a lookup answered "no rows");
    with a [TypeError], one of the reads of step 4 was answered with an
    error. *)
Definition justified (evs : list Event) (x : option Exception) : Prop :=
  match x with
  | None => True
  | Some (Raised e) =>
      ∃ ev, last evs = Some ev ∧ is_upsert (request ev) = true ∧
        failure ev = Some e ∧
        (is_lookup (request ev) = true → code e ≠ PGRST116)
  | Some (TypeError _) =>
      ∃ ev, ev ∈ evs ∧ is_upsert (request ev) = false ∧ is_Some (failure ev)
  end.

Definition traced {A} (c : M A) : Prop :=
  ∀ s, ∃ evs, trace (c s).2 = (trace s ++ evs)%list ∧
    justified evs (thrown (c s).1).

(** The composite names of the positions table, in table order. *)
Definition full_names (s : Store) : list string :=
  map (λ p, chord_position_full_name (p_fields p)) (chord_positions s).

(** A key made from a caption without dashes. *)
Definition plain_key (k : string) : Prop :=
  ∃ c, dashless c ∧ k = composite c.

(** A row that holds the name, position and composite name of a caption
    without dashes. *)
Definition plain_row (p : ChordPosition) : Prop :=
  ∃ c, dashless c ∧ position_pair p = (chord_name c, fret_position c) ∧
    chord_position_full_name (p_fields p) = composite c.

(** What a report says of the tables of [s]: their sizes, the chord names
    in ascending order, and the composite names of the positions in the
    order of their chord names and fret positions. *)
Definition reports (report : Report) (s : Store) : Prop :=
  variations_count report = length (chord_variations s) ∧
  positions_count report = length (chord_positions s) ∧
  variations_listed report ≡ₚ variation_names s ∧
  Sorted String.le (variations_listed report) ∧
  ∃ rows, rows ≡ₚ chord_positions s ∧ Sorted by_name_and_position rows ∧
    positions_listed report =
      map (λ p, chord_position_full_name (p_fields p)) rows.

End SeedSpec.

(** * Properties *)

(** ** JavaScript primitives *)

Lemma split_head sep s : head (Js.split sep s) = Some (before_first sep s).
Proof.
  induction s as [|c rest IH]; simpl; [done|].
  destruct (Ascii.eqb c sep); [done|].
  destruct (Js.split sep rest) as [|piece pieces]; simpl in *; congruence.
Qed.

Lemma truthy_string_Some s : Js.truthy_string (Some s) = true ↔ s ≠ EmptyString.
Proof.
  simpl. destruct (String.eqb_spec s EmptyString); simpl; split; congruence.
Qed.

Lemma or_string_truthy v d :
  Js.truthy_string v = true → ∃ s, v = Some s ∧ Js.or_string v d = s.
Proof.
  destruct v as [s|]; [|done]. intros H. exists s. unfold Js.or_string.
  by rewrite H.
Qed.

Lemma or_string_falsy v d : Js.truthy_string v = false → Js.or_string v d = d.
Proof. destruct v as [s|]; [|done]. unfold Js.or_string. by intros ->. Qed.

Lemma or_number_nonzero v d : d ≠ 0 → Js.or_number v d ≠ 0.
Proof.
  intros Hd. destruct v as [n|]; simpl; [|done].
  destruct (Z.eqb_spec n 0); simpl; done.
Qed.

Lemma or_number_absent_or_zero v d : v = None ∨ v = Some 0 → Js.or_number v d = d.
Proof. by intros [-> | ->]. Qed.

(** ** contexts/UserContext.js *)

Lemma or_number_zero v : Js.or_number v 0 = default 0 v.
Proof.
  destruct v as [n|]; simpl; [|done].
  by destruct (Z.eqb_spec n 0) as [->|]; simpl.
Qed.

Section UserContextProperties.
Import Supabase UserContext UserContextSpec DateSpec.

(** *** Limits *)

(** The limit and the used count behind the check, read off the state: the
    entry stored for the profile's tier in [daily_search_limits], and the
    profile's [daily_searches_used], each [0] when absent. *)
Lemma getDailySearchLimit_entry (dailyLimits : option DailyLimits)
    (profile : option Profile) :
  getDailySearchLimit dailyLimits profile =
  default 0 (ProviderSpec.tier_entry daily_search_limits dailyLimits profile).
Proof.
  unfold getDailySearchLimit, ProviderSpec.tier_entry.
  destruct dailyLimits as [limits|]; [|done].
  destruct (tier_of profile) as [tier|]; [|done]. simpl.
  destruct (negb (String.eqb tier EmptyString)); [|done].
  by rewrite or_number_zero.
Qed.

(** C3. With the limit the entry stored for the profile's tier in
    [daily_search_limits] and the used count the profile's
    [daily_searches_used] (each [0] when absent), [checkDailySearchLimit]
    answers [true] exactly when the limit is [-1] or the used count is
    strictly below the limit; so it answers [false] whenever the limit is not
    negative and the used count has reached it. *)
Theorem checkDailySearchLimit_iff (dailyLimits : option DailyLimits)
    (profile : option Profile) :
  let limit :=
    default 0 (ProviderSpec.tier_entry daily_search_limits dailyLimits profile) in
  let used := default 0 (profile ≫= daily_searches_used) in
  (checkDailySearchLimit dailyLimits profile = true ↔ limit = -1 ∨ used < limit) ∧
  (0 ≤ limit → limit ≤ used → checkDailySearchLimit dailyLimits profile = false).
Proof.
  intros limit used.
  assert (checkDailySearchLimit dailyLimits profile = true ↔
          limit = -1 ∨ used < limit) as Hiff.
  { unfold checkDailySearchLimit, dailySearchesUsed.
    rewrite getDailySearchLimit_entry, or_number_zero. fold limit used.
    destruct (Z.eqb_spec limit (-1)) as [E|E].
    - split; auto.
    - rewrite Z.ltb_lt. split; [auto | intros [?|?]; [done | lia]]. }
  split; [exact Hiff|].
  intros H0 Hused. apply not_true_is_false. rewrite Hiff. lia.
Qed.

Lemma checkDailySearchLimit_iff_witness :
  checkDailySearchLimit (Some default_limits) (Some (profile_of "freebird" 8)) = false ∧
  checkDailySearchLimit (Some default_limits) (Some (profile_of "freebird" 7)) = true.
Proof.
  split.
  - apply (checkDailySearchLimit_iff (Some default_limits)
             (Some (profile_of "freebird" 8))); vm_compute; discriminate.
  - apply (checkDailySearchLimit_iff (Some default_limits)
             (Some (profile_of "freebird" 7))). right. reflexivity.
Defined.

Lemma checkDailySearchLimit_exhausted (dailyLimits : option DailyLimits)
    (profile : option Profile) :
  0 ≤ getDailySearchLimit dailyLimits profile →
  getDailySearchLimit dailyLimits profile ≤ dailySearchesUsed profile →
  checkDailySearchLimit dailyLimits profile = false.
Proof.
  intros H0 Hused. unfold checkDailySearchLimit.
  destruct (Z.eqb_spec (getDailySearchLimit dailyLimits profile) (-1)); [lia|].
  apply Z.ltb_ge. lia.
Qed.

Example freebird_used_8 :
  getDailySearchLimit (Some default_limits) (Some (profile_of "freebird" 8)) = 8 ∧
  checkDailySearchLimit (Some default_limits) (Some (profile_of "freebird" 8)) = false.
Proof. by vm_compute. Qed.

Example freebird_used_7 :
  checkDailySearchLimit (Some default_limits) (Some (profile_of "freebird" 7)) = true.
Proof. by vm_compute. Qed.

Example unlimited_used_10000 :
  let limits := {| daily_search_limits := Some (tiers 8 24 (-1));
                   daily_watch_time_limits := None; favorite_limits := None |} in
  getDailySearchLimit (Some limits) (Some (profile_of "hero" 10000)) = -1 ∧
  checkDailySearchLimit (Some limits) (Some (profile_of "hero" 10000)) = true.
Proof. by vm_compute. Qed.

(** C9. [getDailyWatchTimeLimit] never returns [0]: with the limits
    unloaded, the tier unset, or the tier's watch-time entry absent or [0], it
    returns [60]. *)
Theorem getDailyWatchTimeLimit_never_zero (dailyLimits : option DailyLimits)
    (profile : option Profile) :
  getDailyWatchTimeLimit dailyLimits profile ≠ 0 ∧
  (dailyLimits = None ∨ Js.truthy_string (tier_of profile) = false ∨
   watch_time_entry dailyLimits profile = None ∨
   watch_time_entry dailyLimits profile = Some 0 →
   getDailyWatchTimeLimit dailyLimits profile = 60).
Proof.
  unfold getDailyWatchTimeLimit, watch_time_entry.
  destruct dailyLimits as [limits|]; [|split; done].
  destruct (tier_of profile) as [tier|]; [|split; done].
  destruct (Js.truthy_string (Some tier)) eqn:Ht; [|split; done].
  split; [by apply or_number_nonzero|].
  intros [?|[?|H]]; [done..|]. simpl in H. by apply or_number_absent_or_zero.
Qed.

Lemma getDailyWatchTimeLimit_zero_entry_witness :
  let limits := {| daily_search_limits := None;
                   daily_watch_time_limits := Some (tiers 0 180 480);
                   favorite_limits := None |} in
  watch_time_entry (Some limits) (Some (profile_of "freebird" 3)) = Some 0 ∧
  getDailyWatchTimeLimit (Some limits) (Some (profile_of "freebird" 3)) = 60.
Proof.
  split; [by vm_compute|].
  apply (getDailyWatchTimeLimit_never_zero _ _). right; right; right. by vm_compute.
Defined.

Lemma default_limits_values :
  default_daily_search_limits !! "freebird" = Some 8 ∧
  default_daily_search_limits !! "roadie" = Some 24 ∧
  default_daily_search_limits !! "hero" = Some 100 ∧
  default_daily_watch_time_limits !! "freebird" = Some 60 ∧
  default_daily_watch_time_limits !! "roadie" = Some 180 ∧
  default_daily_watch_time_limits !! "hero" = Some 480 ∧
  default_favorite_limits !! "freebird" = Some 0 ∧
  default_favorite_limits !! "roadie" = Some 12 ∧
  default_favorite_limits !! "hero" = Some (-1).
Proof. by vm_compute. Qed.

(** A fetch that throws or reports an error sets all three categories to the
    defaults, whatever the state was. *)
Lemma fetchDailyLimits_failed (fetched : Awaited SettingsRow)
    (dailyLimits : option DailyLimits) :
  (∃ e, fetched = Thrown e) ∨ (∃ r e, fetched = Resolved r ∧ error r = Some e) →
  fetchDailyLimits fetched dailyLimits = Some default_limits.
Proof.
  intros [[e ->] | (r & e & -> & He)]; simpl; [done|]. by rewrite He.
Qed.

(** With a [setting_value], each category is the remote mapping when it is
    there and its own default otherwise. *)
Lemma fetchDailyLimits_per_category (r : Response SettingsRow) (sv : SettingValue)
    (dailyLimits : option DailyLimits) :
  error r = None → data r ≫= setting_value = Some sv →
  ∃ limits, fetchDailyLimits (Resolved r) dailyLimits = Some limits ∧
    daily_search_limits limits =
      Some (default default_daily_search_limits (sv_daily_search_limits sv)) ∧
    daily_watch_time_limits limits =
      Some (default default_daily_watch_time_limits (sv_daily_watch_time_limits sv)) ∧
    favorite_limits limits =
      Some (default default_favorite_limits (sv_favorite_limits sv)).
Proof.
  intros He Hsv. simpl. rewrite He, Hsv. eexists. split; [done|].
  simpl. by destruct (sv_daily_search_limits sv), (sv_daily_watch_time_limits sv),
    (sv_favorite_limits sv).
Qed.

(** Without a [setting_value] and without an error the state is left as it
    was. *)
Lemma fetchDailyLimits_no_setting_value (r : Response SettingsRow)
    (dailyLimits : option DailyLimits) :
  error r = None → data r ≫= setting_value = None →
  fetchDailyLimits (Resolved r) dailyLimits = dailyLimits.
Proof. intros He Hsv. simpl. by rewrite He, Hsv. Qed.

(** C2. At a row whose [setting_value] is [null], fetched on mount (the
    state is still [null]): no defaults are set, the limits stay unloaded, and
    a roadie profile then reads a search limit of [0], not the default [24]. *)
Theorem fetchDailyLimits_null_setting_value_sets_nothing :
  fetchDailyLimits row_without_setting_value None = None ∧
  getDailySearchLimit (fetchDailyLimits row_without_setting_value None)
    (Some (profile_of "roadie" 0)) = 0 ∧
  getDailySearchLimit (Some default_limits) (Some (profile_of "roadie" 0)) = 24.
Proof. by vm_compute. Qed.

(** *** Display name *)

(** C10, as worded: an email that starts with [@] gives [User], not the
    empty part before the [@]. *)
Lemma userName_empty_local_part :
  userName (Some profile_without_local_part) = "User" ∧
  stated_userName (Some profile_without_local_part) = EmptyString ∧
  userName (Some profile_without_local_part) ≠
  stated_userName (Some profile_without_local_part).
Proof. by vm_compute. Qed.

(** C10, amended. [userName] is the full name when that is non-empty;
    otherwise the part of the email before the first [@] when the email is
    present and that part is non-empty; otherwise [User]. *)
Theorem userName_chain (profile : option Profile) :
  (∀ name, profile ≫= full_name = Some name → name ≠ EmptyString →
     userName profile = name) ∧
  (Js.truthy_string (profile ≫= full_name) = false →
   ∀ e, profile ≫= email = Some e → before_first "@" e ≠ EmptyString →
     userName profile = before_first "@" e) ∧
  (Js.truthy_string (profile ≫= full_name) = false →
   (profile ≫= email = None ∨
    ∃ e, profile ≫= email = Some e ∧ before_first "@" e = EmptyString) →
     userName profile = "User") ∧
  (profile = None → userName profile = "User").
Proof.
  unfold userName, email_local_part. repeat split.
  - intros name Hn Hne. rewrite Hn.
    unfold Js.or_string. by rewrite (proj2 (truthy_string_Some name) Hne).
  - intros Hf e He Hne. rewrite or_string_falsy by done.
    rewrite He. simpl. rewrite split_head.
    unfold Js.or_string. by rewrite (proj2 (truthy_string_Some _) Hne).
  - intros Hf [He | (e & He & Hl)]; rewrite or_string_falsy by done; rewrite He; simpl.
    + done.
    + rewrite split_head, Hl. done.
  - by intros ->.
Qed.

Lemma userName_chain_witness :
  userName (Some (profile_of "roadie" 0)) = "Ann" ∧
  userName (Some profile_without_local_part) = "User" ∧
  userName None = "User".
Proof.
  split; [|split].
  - destruct (userName_chain (Some (profile_of "roadie" 0))) as (Hname & _).
    apply Hname; [reflexivity | discriminate].
  - destruct (userName_chain (Some profile_without_local_part)) as (_ & _ & Huser & _).
    apply Huser; [reflexivity|].
    right. exists "@example.com". split; reflexivity.
  - destruct (userName_chain None) as (_ & _ & _ & Hnone).
    apply Hnone. reflexivity.
Defined.

(** *** Daily reset *)






(** The local day is that of the local wall clock: every instant whose local
    time lies within day [d] is on day [d], whatever its time of day. *)
Lemma localDay_within_day (clock : Clock) (t d : Z) :
  d * msPerDay ≤ t + utcOffset clock t < (d + 1) * msPerDay →
  localDay clock t = d.
Proof.
  intros H. unfold localDay, msPerDay in *.
  symmetry. apply Z.div_unique with (r := t + utcOffset clock t - d * 86400000); lia.
Qed.



(** A date-only [last_search_reset] denotes midnight UTC of its day, which
    behind UTC is still the evening before: a value written on 2 May is off
    today's local day on 2 May, and the reset goes out. *)
Example date_only_behind_utc :
  Date_parse behind_utc "2024-05-02" = Some (19845 * msPerDay) ∧
  today behind_utc = 19845 ∧
  localDay behind_utc (19845 * msPerDay) = 19844 ∧
  reset_triggered
    (afterRender (calendar_of behind_utc) signed_in
       (profile_reset_at "2024-05-02") rpc_ok None).1 = true.
Proof. by vm_compute. Qed.

(** The render that follows, with [last_search_reset] unchanged, issues
    nothing: the reset goes out once per stale load, not once per render. *)
Lemma no_reset_when_unchanged cal user profile answer answer' previous :
  (afterRender cal user profile answer'
     (afterRender cal user profile answer previous).2).1 = [].
Proof.
  unfold afterRender; simpl. by rewrite bool_decide_eq_true_2.
Qed.

End UserContextProperties.

(** ** scripts/migrate-chord-data.js *)

Section MigrateProperties.
Import Supabase Migrate MigrateSpec.

(** *** Strings and sets *)

Lemma set_from_elem seen xs x :
  x ∈ Js.set_from seen xs ↔ x ∈ xs ∧ x ∉ seen.
Proof.
  revert seen. induction xs as [|y rest IH]; intros seen; simpl.
  - rewrite !elem_of_nil. tauto.
  - case_bool_decide as Hy.
    + rewrite IH, elem_of_cons. split; [tauto|].
      intros [[-> | ?] ?]; tauto.
    + rewrite !elem_of_cons, IH, elem_of_cons. split.
      * intros [-> | [? ?]]; tauto.
      * intros [[-> | ?] ?]; [tauto|].
        destruct (decide (x = y)); tauto.
Qed.

Lemma unique_elem xs x : x ∈ Js.unique xs ↔ x ∈ xs.
Proof. unfold Js.unique. rewrite set_from_elem, elem_of_nil. tauto. Qed.

Lemma set_from_NoDup seen xs : NoDup (Js.set_from seen xs).
Proof.
  revert seen. induction xs as [|y rest IH]; intros seen; simpl.
  - constructor.
  - case_bool_decide; [done|]. constructor; [|done].
    rewrite set_from_elem, elem_of_cons. tauto.
Qed.

Lemma unique_NoDup xs : NoDup (Js.unique xs).
Proof. apply set_from_NoDup. Qed.

Lemma split_without sep s : contains sep s = false → Js.split sep s = [s].
Proof.
  induction s as [|c rest IH]; simpl; [done|].
  intros [Hc Hrest]%orb_false_elim. rewrite Hc, IH; done.
Qed.

Lemma split_at_first sep a b :
  contains sep a = false →
  Js.split sep (a ++ String sep b) = a :: Js.split sep b.
Proof.
  induction a as [|c rest IH]; simpl.
  - intros _. by rewrite Ascii.eqb_refl.
  - intros [Hc Hrest]%orb_false_elim. rewrite Hc, IH; done.
Qed.

Lemma components_composite c :
  dashless c → components (composite c) = (chord_name c, fret_position c).
Proof.
  intros [Hn Hf]. unfold components, composite.
  change ("-" ++ fret_position c) with (String "-" (fret_position c)).
  rewrite split_at_first, split_without; done.
Qed.

Lemma split_length sep s : (1 ≤ length (Js.split sep s))%nat.
Proof.
  induction s as [|c rest IH]; simpl; [lia|].
  destruct (Ascii.eqb c sep); simpl; [lia|].
  destruct (Js.split sep rest); simpl in *; lia.
Qed.

(** A composite key always has two components. *)
Lemma split_composite c : (2 ≤ length (Js.split "-" (composite c)))%nat.
Proof.
  unfold composite. generalize (fret_position c) as b.
  induction (chord_name c) as [|ch rest IH]; intros b.
  - change (EmptyString ++ "-" ++ b) with (String "-" b).
    cbn [Js.split]. rewrite Ascii.eqb_refl. cbn [length].
    pose proof (split_length "-" b). lia.
  - change (String ch rest ++ "-" ++ b) with (String ch (rest ++ "-" ++ b)).
    cbn [Js.split]. specialize (IH b).
    destruct (Ascii.eqb ch "-"); cbn [length]; [lia|].
    destruct (Js.split "-" (rest ++ "-" ++ b)); cbn [length] in *; lia.
Qed.

Lemma filter_key {A K} (f : A → K) (P : A → Prop) `{∀ x, Decision (P x)}
    (l : list A) (y : K) :
  (∀ x, P x ↔ f x = y) → NoDup (f <$> l) →
  (filter P l = [] ∧ y ∉ f <$> l) ∨
  (∃ x, x ∈ l ∧ f x = y ∧ filter P l = [x]).
Proof.
  intros HP. induction l as [|a l IH]; simpl.
  - intros _. left. split; [done | apply not_elem_of_nil].
  - intros [Ha Hl]%NoDup_cons. rewrite filter_cons.
    destruct (IH Hl) as [[Hf Hy] | (x & Hx & Hfx & Hf)]; rewrite Hf.
    + case_decide as Hfa.
      * right. exists a. split; [by left|]. split; [by apply HP | done].
      * left. split; [done|]. intros [?|?]%elem_of_cons; [|done].
        apply Hfa, HP. congruence.
    + case_decide as Hfa.
      * exfalso. apply Ha. apply HP in Hfa. rewrite Hfa, <- Hfx.
        by apply list_elem_of_fmap_2.
      * right. exists x. split; [by right | done].
Qed.

Lemma placed_pair n f p : placed n f p ↔ position_pair p = (n, f).
Proof. unfold placed, position_pair. split; [by intros [-> ->] | by intros [= -> ->]]. Qed.

(** *** Errors *)

Lemma keeps_rows_refl s : keeps_rows s [] s.
Proof. unfold keeps_rows. simpl. rewrite !app_nil_r. done. Qed.

Lemma obeys_ret {A} (a : A) : obeys (ret a).
Proof.
  intros s. exists []. simpl. rewrite app_nil_r.
  repeat split; try done; try apply keeps_rows_refl; by intros i ev e ?.
Qed.

Lemma obeys_throw {A} x : obeys (@throw A x).
Proof.
  intros s. exists []. simpl. rewrite app_nil_r.
  repeat split; try done; try apply keeps_rows_refl; by intros i ev e ?.
Qed.

Lemma keeps_rows_trans s1 evs1 s2 evs2 s3 :
  keeps_rows s1 evs1 s2 → keeps_rows s2 evs2 s3 → keeps_rows s1 (evs1 ++ evs2)%list s3.
Proof.
  intros (Hv1 & Hp1 & Hn1 & Hf1) (Hv2 & Hp2 & Hn2 & Hf2).
  repeat split; [by etrans | by etrans | |].
  - by rewrite Hn2, Hn1, omap_app, app_assoc.
  - by rewrite Hf2, Hf1, omap_app, app_assoc.
Qed.

Lemma obeys_bind {A B} (c : M A) (k : A → M B) :
  obeys c → (∀ a, obeys (k a)) → obeys (bind c k).
Proof.
  intros Hc Hk s. unfold bind.
  destruct (Hc s) as (evs1 & Ht1 & Hs1 & He1 & Hr1).
  destruct (c s) as [[a|x] s1] eqn:Hcs; simpl in *; [|by exists evs1].
  destruct (Hk a s1) as (evs2 & Ht2 & Hs2 & He2 & Hr2).
  exists (evs1 ++ evs2)%list. split; [by rewrite Ht2, Ht1, app_assoc|].
  split; [|split; [|by eapply keeps_rows_trans]].
  - intros i ev e Hi Hl Hf Hc'.
    destruct (decide (i < length evs1)%nat) as [Hlt|Hge].
    + rewrite lookup_app_l in Hi by done.
      destruct (Hs1 i ev e Hi Hl Hf Hc') as (ev' & Hi' & Hins).
      exists ev'. split; [|done].
      rewrite lookup_app_l; [done | by eapply lookup_lt_Some].
    + rewrite lookup_app_r in Hi by lia.
      destruct (Hs2 _ ev e Hi Hl Hf Hc') as (ev' & Hi' & Hins).
      exists ev'. split; [|done].
      rewrite lookup_app_r by lia. by replace (S i - length evs1)%nat with (S (i - length evs1)) by lia.
  - intros i ev e Hi Hu Hf Hc'.
    destruct (decide (i < length evs1)%nat) as [Hlt|Hge].
    + rewrite lookup_app_l in Hi by done.
      by destruct (He1 i ev e Hi Hu Hf Hc') as [? _].
    + rewrite lookup_app_r in Hi by lia.
      destruct (He2 _ ev e Hi Hu Hf Hc') as [-> Hlen].
      split; [done|]. rewrite length_app. lia.
Qed.

Lemma obeys_for_of {A S} (xs : list A) (body : S → A → M S) (acc : S) :
  (∀ acc x, obeys (body acc x)) → obeys (for_of xs body acc).
Proof.
  intros Hbody. revert acc. induction xs as [|x rest IH]; intros acc; simpl.
  - apply obeys_ret.
  - apply obeys_bind; [apply Hbody | apply IH].
Qed.

Lemma prefix_snoc {A} (l : list A) x : l `prefix_of` (l ++ [x])%list.
Proof. by exists [x]. Qed.

Ltac shape_events :=
  repeat match goal with
  | |- sentinel_then_insert _ => intros [|[|[|?]]] ? ? ? ? ? ?
  | |- error_aborts _ _ => intros [|[|[|?]]] ? ? ? ? ? ?
  | |- keeps_rows _ _ _ =>
      unfold keeps_rows, variation_names; simpl;
      rewrite ?map_app, ?app_nil_r; simpl
  | |- _ ∧ _ => split
  end;
  simplify_eq/=;
  try match goal with H : true = true → _ |- _ => specialize (H eq_refl) end;
  try done; try congruence; eauto using prefix_snoc;
  try (eexists; split; [reflexivity | simpl; done]).

Ltac run_body :=
  intros s;
  unfold upsert_variation, upsert_position, verify, bind, await, select_variation,
    insert_variation, select_position, insert_position, select_all_variations,
    select_all_positions, call, check, single, ret, throw;
  repeat (case_match; simpl in *; simplify_eq);
  repeat (case_bool_decide; simpl in *; simplify_eq);
  simpl in *; simplify_eq/=;
  (eexists; split; [simpl; rewrite <- ?app_assoc; reflexivity | shape_events]).

Lemma obeys_upsert_variation m n : obeys (upsert_variation m n).
Proof. run_body. Qed.

Lemma obeys_upsert_position m u k : obeys (upsert_position m u k).
Proof. run_body. Qed.

Lemma obeys_verify : obeys verify.
Proof. run_body. Qed.

Lemma obeys_migration captions : obeys (migration captions).
Proof.
  unfold migration.
  apply obeys_bind; [apply obeys_for_of, obeys_upsert_variation|]. intros m.
  apply obeys_bind; [apply obeys_for_of, obeys_upsert_position|]. intros _.
  apply obeys_verify.
Qed.

(** The reason of a failure is kept by the same constructions: a failed
    run is justified by a failed call. *)
Lemma traced_ret {A} (a : A) : SeedSpec.traced (ret a).
Proof. intros s. exists []. simpl. by rewrite app_nil_r. Qed.

Lemma traced_bind {A B} (c : M A) (k : A → M B) :
  SeedSpec.traced c → (∀ a, SeedSpec.traced (k a)) → SeedSpec.traced (bind c k).
Proof.
  intros Hc Hk s. unfold bind.
  destruct (Hc s) as (evs1 & Ht1 & Hj1).
  destruct (c s) as [[a|x] s1] eqn:Hcs; simpl in *; [|by exists evs1].
  destruct (Hk a s1) as (evs2 & Ht2 & Hj2).
  exists (evs1 ++ evs2)%list. split; [by rewrite Ht2, Ht1, app_assoc|].
  destruct (thrown (k a s1).1) as [[e|what]|]; simpl in *; [| |done].
  - destruct Hj2 as (ev & Hlast & Hrest). exists ev. split; [|done].
    by rewrite last_app, Hlast.
  - destruct Hj2 as (ev & Hin & Hrest). exists ev. split; [|done].
    apply elem_of_app. by right.
Qed.

Lemma traced_for_of {A S} (xs : list A) (body : S → A → M S) (acc : S) :
  (∀ acc x, SeedSpec.traced (body acc x)) → SeedSpec.traced (for_of xs body acc).
Proof.
  intros Hbody. revert acc. induction xs as [|x rest IH]; intros acc; simpl.
  - apply traced_ret.
  - apply traced_bind; [apply Hbody | apply IH].
Qed.

Ltac trace_body :=
  intros s;
  unfold upsert_variation, upsert_position, verify, bind, await, select_variation,
    insert_variation, select_position, insert_position, select_all_variations,
    select_all_positions, call, check, single, ret, throw;
  repeat (case_match; simpl in *; simplify_eq);
  repeat (case_bool_decide; simpl in *; simplify_eq);
  simpl in *; simplify_eq/=;
  (eexists; split; [simpl; rewrite <- ?app_assoc; reflexivity |]);
  simpl; try done;
  try (eexists; split; [reflexivity|]; simpl; by eauto);
  try (eexists; split; [apply elem_of_cons; left; reflexivity|]; simpl; by eauto);
  try (eexists; split; [apply elem_of_cons; right; apply elem_of_cons; left; reflexivity|];
       simpl; by eauto).

Lemma traced_upsert_variation m n : SeedSpec.traced (upsert_variation m n).
Proof. trace_body. Qed.

Lemma traced_upsert_position m u k : SeedSpec.traced (upsert_position m u k).
Proof. trace_body. Qed.

Lemma traced_verify : SeedSpec.traced verify.
Proof. trace_body. Qed.

Lemma traced_migration captions : SeedSpec.traced (migration captions).
Proof.
  unfold migration.
  apply traced_bind; [apply traced_for_of, traced_upsert_variation|]. intros m.
  apply traced_bind; [apply traced_for_of, traced_upsert_position|]. intros _.
  apply traced_verify.
Qed.

(** C6. In a run of the procedure from any store and with any errors
    pending: a lookup answered with [PGRST116] is followed by the insert for
    the same item; any other error of a lookup or an insert is the last call
    of the run, which ends with that error; the tables keep the rows they had
    and every row whose insert was acknowledged; a run that fails with a
    store error ends on a lookup or an insert answered with that error, which
    is not a lookup answered with [PGRST116]; and a run in which the only
    errors are lookups answered with [PGRST116] completes. *)
Theorem migrate_error_handling captions s :
  sentinel_then_insert (events_since s (migrate captions s).2) ∧
  error_aborts (events_since s (migrate captions s).2) (failure_of (migrate captions s).1) ∧
  keeps_rows s (events_since s (migrate captions s).2) (migrate captions s).2 ∧
  SeedSpec.justified (events_since s (migrate captions s).2)
    (failure_of (migrate captions s).1) ∧
  (only_not_found (events_since s (migrate captions s).2) →
   ∃ report, (migrate captions s).1 = Completed report).
Proof.
  destruct (obeys_migration captions s) as (evs & Ht & Hs & He & Hr).
  destruct (traced_migration captions s) as (evs' & Ht' & Hj).
  assert (evs' = evs) as -> by (rewrite Ht in Ht'; by apply app_inv_head in Ht').
  unfold migrate, events_since.
  destruct (migration captions s) as [[report|x] s'] eqn:Hm; simpl in *;
    rewrite Ht, drop_app_length.
  - do 4 (split; [done|]). by exists report.
  - do 4 (split; [done|]). intros Honly. exfalso.
    destruct x as [e|what]; simpl in Hj.
    + destruct Hj as (ev & Hlast & _ & Hf & Hcode).
      destruct (Honly ev e) as [Hl Hc]; [by apply last_Some_elem_of | done |].
      by apply Hcode.
    + destruct Hj as (ev & Hin & Hup & [e Hf]).
      destruct (Honly ev e Hin Hf) as [Hl _].
      by destruct (request ev).
Qed.

(** From empty tables every lookup of the sample data is answered with
    [PGRST116], thirteen times in all, and the run completes. *)
Example migrateChordData_not_found_only :
  only_not_found (events_since empty_store (migrateChordData empty_store).2) ∧
  length (filter (λ ev, failure ev ≠ None)
            (events_since empty_store (migrateChordData empty_store).2)) = 13%nat ∧
  failure_of (migrateChordData empty_store).1 = None.
Proof.
  split; [|split; vm_compute; reflexivity].
  assert (Forall (λ ev, ∀ e, failure ev = Some e →
                    is_lookup (request ev) = true ∧ code e = PGRST116)
            (events_since empty_store (migrateChordData empty_store).2)) as H.
  { vm_compute events_since.
    repeat (apply Forall_cons_2; [intros e Hf; simpl in Hf; simplify_eq; by split|]).
    apply Forall_nil_2. }
  intros ev e Hin. by apply (proj1 (Forall_forall _ _) H).
Qed.

(** The fourth call fails: the run stops there and the row inserted by the
    second call stays. *)
Example migrateChordData_fourth_call_fails :
  (migrateChordData (flaky 3)).1 = Failed (Raised e500) ∧
  map request (trace (migrateChordData (flaky 3)).2) =
    [SelectVariation "D#"; InsertVariation "D#"; SelectVariation "C";
     InsertVariation "C"] ∧
  variation_names (migrateChordData (flaky 3)).2 = ["D#"] ∧
  chord_positions (migrateChordData (flaky 3)).2 = [].
Proof. repeat split; vm_compute; reflexivity. Qed.

(** *** Runs without errors *)

Lemma call_quiet {A} req (serve : Store → Response A * Store) s :
  quiet s →
  call req serve s = ((serve s).1, record req (error (serve s).1) (serve s).2).
Proof. unfold quiet, call. intros ->. simpl. by destruct (serve s). Qed.

Lemma upsert_variation_quiet m n s :
  quiet s → NoDup (variation_names s) →
  ∃ id s' evs,
    upsert_variation m n s = (Ok (<[n := id]> m), s') ∧
    quiet s' ∧ trace s' = (trace s ++ evs)%list ∧
    chord_positions s' = chord_positions s ∧
    {| v_id := id; v_chord_name := n |} ∈ chord_variations s' ∧
    ((n ∈ variation_names s ∧ chord_variations s' = chord_variations s ∧
      Forall no_insert evs) ∨
     ((n ∉ variation_names s) ∧
      chord_variations s' =
        (chord_variations s ++ [{| v_id := id; v_chord_name := n |}])%list)).
Proof.
  intros Hq Hnd.
  unfold upsert_variation, bind, await, select_variation, insert_variation.
  rewrite call_quiet by done. simpl.
  destruct (filter_key v_chord_name (named n) (chord_variations s) n
              (λ _, reflexivity _) Hnd)
    as [[Hf Hn] | (v & Hv & Hvn & Hf)].
  - rewrite Hf. simpl.
    rewrite call_quiet by (unfold quiet in *; simpl; by rewrite Hq). simpl.
    eexists _, _, [_; _]. split; [reflexivity|]. simpl.
    split; [unfold quiet in *; simpl; by rewrite Hq|].
    split; [by rewrite <- app_assoc|]. split; [done|].
    split; [apply elem_of_app; right; constructor|].
    right. done.
  - rewrite Hf. simpl.
    eexists _, _, [_]. split; [reflexivity|]. simpl.
    split; [unfold quiet in *; simpl; by rewrite Hq|].
    split; [done|]. split; [done|].
    split; [by destruct v; simplify_eq/=|].
    left. split; [rewrite <- Hvn; by apply list_elem_of_fmap_2|].
    split; [done|]. by repeat constructor.
Qed.

Lemma variations_loop_quiet names : ∀ m s,
  quiet s → NoDup (variation_names s) →
  ∃ m' s' evs,
    for_of names upsert_variation m s = (Ok m', s') ∧
    quiet s' ∧ trace s' = (trace s ++ evs)%list ∧
    chord_positions s' = chord_positions s ∧
    NoDup (variation_names s') ∧
    chord_variations s `prefix_of` chord_variations s' ∧
    (∀ x, x ∈ names → x ∈ variation_names s') ∧
    (∀ x, x ∈ names →
       ∃ id, m' !! x = Some id ∧
             {| v_id := id; v_chord_name := x |} ∈ chord_variations s') ∧
    (∀ x, x ∉ names → m' !! x = m !! x) ∧
    ((∀ x, x ∈ names → x ∈ variation_names s) →
     chord_variations s' = chord_variations s ∧ Forall no_insert evs).
Proof.
  induction names as [|n rest IH]; intros m s Hq Hnd; simpl.
  - exists m, s, []. rewrite app_nil_r.
    repeat split; try done; by intros x ?%elem_of_nil.
  - unfold bind.
    destruct (upsert_variation_quiet m n s Hq Hnd)
      as (id & s1 & evs1 & -> & Hq1 & Ht1 & Hp1 & Hrow & Hcase).
    assert (NoDup (variation_names s1) ∧
            chord_variations s `prefix_of` chord_variations s1 ∧
            n ∈ variation_names s1) as (Hnd1 & Hpre1 & Hn1).
    { unfold variation_names in *.
      destruct Hcase as [(Hn & -> & _) | (Hn & ->)]; [done|].
      rewrite map_app. simpl. split; [|split].
      - apply NoDup_app. split; [done|]. split; [|apply NoDup_singleton].
        by intros x Hx ->%list_elem_of_singleton.
      - by eexists.
      - apply elem_of_app. right. constructor. }
    destruct (IH (<[n := id]> m) s1 Hq1 Hnd1)
      as (m' & s' & evs2 & -> & Hq2 & Ht2 & Hp2 & Hnd2 & Hpre2 & Hall & Hmap & Hother & Hstable).
    exists m', s', (evs1 ++ evs2)%list.
    split; [done|]. split; [done|].
    split; [by rewrite Ht2, Ht1, app_assoc|].
    split; [congruence|]. split; [done|]. split; [by etrans|].
    assert (∀ x, x ∈ variation_names s1 → x ∈ variation_names s') as Hmono.
    { intros x Hx. unfold variation_names in *. destruct Hpre2 as [k ->].
      rewrite map_app. apply elem_of_app. by left. }
    split; [|split; [|split]].
    + intros x [-> | Hx]%elem_of_cons; [by apply Hmono | by apply Hall].
    + intros x Hx. destruct (decide (x ∈ rest)) as [Hin|Hnin]; [by apply Hmap|].
      apply elem_of_cons in Hx as [-> | ?]; [|done].
      exists id. rewrite Hother by done. rewrite lookup_insert_eq. split; [done|].
      destruct Hpre2 as [k ->]. apply elem_of_app. by left.
    + intros x Hx. rewrite Hother by (intros ?; apply Hx; by right).
      apply lookup_insert_ne. intros ->. apply Hx. by left.
    + intros Hhave.
      destruct Hcase as [(Hn & Hv1 & Hno1) | (Hn & _)];
        [|exfalso; apply Hn, Hhave; by left].
      destruct Hstable as [Hv2 Hno2].
      { intros x Hx. unfold variation_names. rewrite Hv1. apply Hhave. by right. }
      split; [congruence | by apply Forall_app].
Qed.

Lemma upsert_position_quiet m u k s :
  quiet s → NoDup (position_pairs s) →
  ∃ s' evs,
    upsert_position m u k s = (Ok tt, s') ∧
    quiet s' ∧ trace s' = (trace s ++ evs)%list ∧
    chord_variations s' = chord_variations s ∧
    ((components k ∈ position_pairs s ∧ chord_positions s' = chord_positions s ∧
      Forall no_insert evs) ∨
     ((components k ∉ position_pairs s) ∧
      ∃ id, chord_positions s' =
        (chord_positions s ++ [{| p_id := id; p_fields := fields_for m k |}])%list)).
Proof.
  intros Hq Hnd. unfold fields_for.
  unfold upsert_position, bind, await, select_position, insert_position.
  destruct (components k) as [a b]. simpl.
  rewrite call_quiet by done. simpl.
  destruct (filter_key position_pair (placed a b) (chord_positions s) (a, b)
              (placed_pair a b) Hnd)
    as [[Hf Hn] | (p & Hp & Hpp & Hf)].
  - rewrite Hf. simpl.
    rewrite call_quiet by (unfold quiet in *; simpl; by rewrite Hq). simpl.
    eexists _, [_; _]. split; [reflexivity|]. simpl.
    split; [unfold quiet in *; simpl; by rewrite Hq|].
    split; [by rewrite <- app_assoc|]. split; [done|].
    right. split; [done|]. by eexists.
  - rewrite Hf. simpl.
    eexists _, [_]. split; [reflexivity|]. simpl.
    split; [unfold quiet in *; simpl; by rewrite Hq|].
    split; [done|]. split; [done|].
    left. split; [rewrite <- Hpp; by apply list_elem_of_fmap_2|].
    split; [done|]. by repeat constructor.
Qed.

Lemma positions_loop_quiet m keys : ∀ u s,
  quiet s → NoDup (position_pairs s) →
  ∃ s' evs,
    for_of keys (upsert_position m) u s = (Ok tt, s') ∧
    quiet s' ∧ trace s' = (trace s ++ evs)%list ∧
    chord_variations s' = chord_variations s ∧
    NoDup (position_pairs s') ∧
    chord_positions s `prefix_of` chord_positions s' ∧
    (∀ k, k ∈ keys → components k ∈ position_pairs s') ∧
    (∀ p, p ∈ chord_positions s' →
       p ∈ chord_positions s ∨ ∃ k, k ∈ keys ∧ p_fields p = fields_for m k) ∧
    ((∀ k, k ∈ keys → components k ∈ position_pairs s) →
     chord_positions s' = chord_positions s ∧ Forall no_insert evs).
Proof.
  induction keys as [|k rest IH]; intros u s Hq Hnd; simpl.
  - destruct u. exists s, []. rewrite app_nil_r.
    repeat split; try done; [by intros x ?%elem_of_nil | by left].
  - unfold bind.
    destruct (upsert_position_quiet m u k s Hq Hnd)
      as (s1 & evs1 & -> & Hq1 & Ht1 & Hv1 & Hcase).
    assert (NoDup (position_pairs s1) ∧
            chord_positions s `prefix_of` chord_positions s1 ∧
            components k ∈ position_pairs s1 ∧
            (∀ p, p ∈ chord_positions s1 →
               p ∈ chord_positions s ∨ p_fields p = fields_for m k))
      as (Hnd1 & Hpre1 & Hk1 & Hnew1).
    { unfold position_pairs in *.
      destruct Hcase as [(Hk & -> & _) | (Hk & id & ->)]; [by auto|].
      rewrite map_app. simpl.
      assert (position_pair {| p_id := id; p_fields := fields_for m k |} = components k)
        as Hpair by (unfold position_pair, fields_for; simpl; by destruct (components k)).
      rewrite Hpair. split; [|split; [|split]].
      - apply NoDup_app. split; [done|]. split; [|apply NoDup_singleton].
        by intros x Hx ->%list_elem_of_singleton.
      - by eexists.
      - apply elem_of_app. right. constructor.
      - intros p [? | ->%list_elem_of_singleton]%elem_of_app; [by left | by right]. }
    destruct (IH tt s1 Hq1 Hnd1)
      as (s' & evs2 & -> & Hq2 & Ht2 & Hv2 & Hnd2 & Hpre2 & Hall & Hnew & Hstable).
    exists s', (evs1 ++ evs2)%list.
    split; [done|]. split; [done|].
    split; [by rewrite Ht2, Ht1, app_assoc|].
    split; [congruence|]. split; [done|]. split; [by etrans|].
    split; [|split].
    + intros x [-> | Hx]%elem_of_cons; [|by apply Hall].
      unfold position_pairs in *. destruct Hpre2 as [l ->].
      rewrite map_app. apply elem_of_app. by left.
    + intros p Hp. destruct (Hnew p Hp) as [Hp1 | (k' & Hk' & Hf)].
      * destruct (Hnew1 p Hp1) as [? | ?]; [by left|].
        right. exists k. split; [by left | done].
      * right. exists k'. split; [by right | done].
    + intros Hhave.
      destruct Hcase as [(Hk & Hp1 & Hno1) | (Hk & _)];
        [|exfalso; apply Hk, Hhave; by left].
      destruct Hstable as [Hp2 Hno2].
      { intros x Hx. unfold position_pairs. rewrite Hp1. apply Hhave. by right. }
      split; [congruence | by apply Forall_app].
Qed.

Lemma verify_quiet s :
  quiet s →
  ∃ report s' evs,
    verify s = (Ok report, s') ∧ quiet s' ∧ trace s' = (trace s ++ evs)%list ∧
    chord_variations s' = chord_variations s ∧
    chord_positions s' = chord_positions s ∧ Forall no_insert evs ∧
    variations_count report = length (chord_variations s) ∧
    positions_count report = length (chord_positions s).
Proof.
  intros Hq. unfold verify, bind, await, select_all_variations, select_all_positions.
  rewrite call_quiet by done. simpl.
  rewrite call_quiet by (unfold quiet in *; simpl; by rewrite Hq). simpl.
  eexists _, _, [_; _]. split; [reflexivity|]. simpl.
  split; [unfold quiet in *; simpl; by rewrite Hq|].
  split; [by rewrite <- app_assoc|].
  split; [done|]. split; [done|]. split; [by repeat constructor|].
  split; apply Permutation_length, merge_sort_Permutation.
Qed.

Lemma migration_quiet captions s :
  quiet s → consistent s →
  ∃ report s' evs m,
    migration captions s = (Ok report, s') ∧
    quiet s' ∧ consistent s' ∧ trace s' = (trace s ++ evs)%list ∧
    chord_variations s `prefix_of` chord_variations s' ∧
    chord_positions s `prefix_of` chord_positions s' ∧
    (∀ c, c ∈ captions → chord_name c ∈ variation_names s') ∧
    (∀ c, c ∈ captions → components (composite c) ∈ position_pairs s') ∧
    (∀ c, c ∈ captions →
       ∃ id, m !! chord_name c = Some id ∧
             {| v_id := id; v_chord_name := chord_name c |} ∈ chord_variations s') ∧
    (∀ p, p ∈ chord_positions s' →
       p ∈ chord_positions s ∨
       ∃ c, c ∈ captions ∧ p_fields p = fields_for m (composite c)) ∧
    variations_count report = length (chord_variations s') ∧
    positions_count report = length (chord_positions s') ∧
    ((∀ c, c ∈ captions → chord_name c ∈ variation_names s) →
     (∀ c, c ∈ captions → components (composite c) ∈ position_pairs s) →
     chord_variations s' = chord_variations s ∧
     chord_positions s' = chord_positions s ∧ Forall no_insert evs).
Proof.
  intros Hq [Hndv Hndp]. unfold migration, bind.
  destruct (variations_loop_quiet (Js.unique (map chord_name captions)) ∅ s Hq Hndv)
    as (m & s1 & evs1 & -> & Hq1 & Ht1 & Hp1 & Hndv1 & Hpre1 & Hall1 & Hmap1 & _ & Hst1).
  assert (NoDup (position_pairs s1)) as Hndp1 by (unfold position_pairs; by rewrite Hp1).
  destruct (positions_loop_quiet m (Js.unique (map composite captions)) tt s1 Hq1 Hndp1)
    as (s2 & evs2 & -> & Hq2 & Ht2 & Hv2 & Hndp2 & Hpre2 & Hall2 & Hnew2 & Hst2).
  destruct (verify_quiet s2 Hq2)
    as (report & s3 & evs3 & -> & Hq3 & Ht3 & Hv3 & Hp3 & Hno3 & Hcv & Hcp).
  assert (∀ c, c ∈ captions → chord_name c ∈ Js.unique (map chord_name captions)) as Hnames.
  { intros c Hc. apply unique_elem. by apply (list_elem_of_fmap_2 chord_name). }
  assert (∀ c, c ∈ captions → composite c ∈ Js.unique (map composite captions)) as Hkeys.
  { intros c Hc. apply unique_elem. by apply (list_elem_of_fmap_2 composite). }
  exists report, s3, (evs1 ++ evs2 ++ evs3)%list, m.
  split; [done|]. split; [done|].
  split; [unfold consistent, variation_names, position_pairs in *;
          rewrite Hv3, Hv2, Hp3; done|].
  split; [by rewrite Ht3, Ht2, Ht1, !app_assoc|].
  split; [by rewrite Hv3, Hv2|]. split; [rewrite Hp3, <- Hp1; done|].
  split; [intros c Hc; unfold variation_names in *; rewrite Hv3, Hv2; by apply Hall1, Hnames|].
  split; [intros c Hc; unfold position_pairs in *; rewrite Hp3; by apply Hall2, Hkeys|].
  split; [intros c Hc; rewrite Hv3, Hv2; by apply Hmap1, Hnames|].
  split.
  { intros p Hp. rewrite Hp3 in Hp.
    destruct (Hnew2 p Hp) as [? | (k & Hk & Hf)]; [left; congruence|].
    apply (proj1 (unique_elem _ _)) in Hk.
    apply (list_elem_of_fmap composite) in Hk as (c & -> & Hc). right. by exists c. }
  split; [congruence|]. split; [congruence|].
  intros Hhavev Hhavep.
  destruct Hst1 as [Hv1 Hno1].
  { intros x Hx. apply (proj1 (unique_elem _ _)) in Hx.
    apply (list_elem_of_fmap chord_name) in Hx as (c & -> & Hc). by apply Hhavev. }
  destruct Hst2 as [Hp2 Hno2].
  { intros k Hk. apply (proj1 (unique_elem _ _)) in Hk.
    apply (list_elem_of_fmap composite) in Hk as (c & -> & Hc).
    unfold position_pairs in *. rewrite Hp1. by apply Hhavep. }
  split; [congruence|]. split; [congruence|].
  by rewrite !Forall_app.
Qed.

Lemma filter_one {A K} (f : A → K) (P : A → Prop) `{∀ x, Decision (P x)}
    (l : list A) (y : K) :
  (∀ x, P x ↔ f x = y) → NoDup (f <$> l) → y ∈ f <$> l →
  length (filter P l) = 1%nat.
Proof.
  intros HP Hnd Hy.
  by destruct (filter_key f P l y HP Hnd) as [[_ ?] | (x & _ & _ & ->)].
Qed.

Lemma no_insert_filter evs :
  Forall no_insert evs → filter (λ ev, is_insert ev = true) evs = [].
Proof.
  induction 1 as [|ev evs Hev _ IH]; [done|].
  unfold no_insert in Hev. rewrite filter_cons_False; [done | congruence].
Qed.

(** C1. From a store with no error pending whose tables hold each chord
    name and each (name, position) pair at most once, a run completes, and a
    second run on the same captions completes too, leaves both tables as the
    first run left them and sends no insert.  After the first run the
    variations table holds exactly one row for the chord name of each
    caption, and the positions table exactly one row for the two components
    of each caption's key; these are the caption's own name and position
    when neither holds a dash, as in all of the sample data. *)
Theorem migrate_idempotent captions s :
  quiet s → consistent s →
  let once := migrate captions s in
  let twice := migrate captions once.2 in
  failure_of once.1 = None ∧ failure_of twice.1 = None ∧
  chord_variations twice.2 = chord_variations once.2 ∧
  chord_positions twice.2 = chord_positions once.2 ∧
  filter (λ ev, is_insert ev = true) (events_since once.2 twice.2) = [] ∧
  (∀ c, c ∈ captions →
     length (filter (named (chord_name c)) (chord_variations once.2)) = 1%nat) ∧
  (∀ c, c ∈ captions →
     length (filter (placed (components (composite c)).1 (components (composite c)).2)
               (chord_positions once.2)) = 1%nat) ∧
  (∀ c, c ∈ captions → dashless c →
     length (filter (placed (chord_name c) (fret_position c))
               (chord_positions once.2)) = 1%nat).
Proof.
  intros Hq Hc. simpl. unfold migrate.
  destruct (migration_quiet captions s Hq Hc)
    as (r1 & s1 & evs1 & m1 & -> & Hq1 & Hc1 & _ & _ & _ & Hv1 & Hp1 & _).
  simpl.
  destruct (migration_quiet captions s1 Hq1 Hc1)
    as (r2 & s2 & evs2 & m2 & -> & _ & _ & Ht2 & _ & _ & _ & _ & _ & _ & _ & _ & Hst).
  destruct (Hst Hv1 Hp1) as (Hsv & Hsp & Hno). simpl.
  assert (∀ c, c ∈ captions →
     length (filter (placed (components (composite c)).1 (components (composite c)).2)
               (chord_positions s1)) = 1%nat) as Hkey.
  { intros c Hin. destruct Hc1 as [_ Hnd].
    apply (filter_one position_pair _ _ (components (composite c)));
      [|done | by apply Hp1].
    intros p. rewrite placed_pair. by destruct (components (composite c)). }
  split; [done|]. split; [done|]. split; [done|]. split; [done|].
  split; [|split; [|split; [done|]]].
  - unfold events_since. rewrite Ht2, drop_app_length.
    by apply no_insert_filter.
  - intros c Hin. destruct Hc1 as [Hnd _].
    apply (filter_one v_chord_name _ _ (chord_name c)); [done | done | by apply Hv1].
  - intros c Hin Hd. specialize (Hkey c Hin).
    by rewrite components_composite in Hkey.
Qed.

Lemma sample_captions_dashless : Forall dashless chordCaptionData.
Proof. repeat constructor. Qed.

Lemma migrate_idempotent_witness :
  quiet empty_store ∧ consistent empty_store ∧
  chord_variations (migrate chordCaptionData (migrate chordCaptionData empty_store).2).2 =
    chord_variations (migrate chordCaptionData empty_store).2 ∧
  chord_positions (migrate chordCaptionData (migrate chordCaptionData empty_store).2).2 =
    chord_positions (migrate chordCaptionData empty_store).2 ∧
  filter (λ ev, is_insert ev = true)
    (events_since (migrate chordCaptionData empty_store).2
       (migrate chordCaptionData (migrate chordCaptionData empty_store).2).2) = [] ∧
  ∀ c, c ∈ chordCaptionData →
    length (filter (named (chord_name c))
              (chord_variations (migrate chordCaptionData empty_store).2)) = 1%nat ∧
    length (filter (placed (chord_name c) (fret_position c))
              (chord_positions (migrate chordCaptionData empty_store).2)) = 1%nat.
Proof.
  assert (quiet empty_store) as Hq by reflexivity.
  assert (consistent empty_store) as Hc by (split; apply NoDup_nil_2).
  destruct (migrate_idempotent chordCaptionData empty_store Hq Hc)
    as (_ & _ & Hv & Hp & Hno & Hone & _ & Hpair).
  refine (conj Hq (conj Hc (conj Hv (conj Hp (conj Hno _))))).
  intros c Hin. split; [by apply Hone|].
  apply Hpair; [done|].
  by apply (proj1 (Forall_forall _ _) sample_captions_dashless).
Defined.

(** Rows the run added are named after their own two columns, which are the
    components of some caption's key. *)
Lemma migrate_new_positions captions s :
  quiet s → consistent s →
  ∀ p, p ∈ chord_positions (migrate captions s).2 →
    p ∈ chord_positions s ∨
    (chord_position_full_name (p_fields p) =
       p_chord_name (p_fields p) ++ "-" ++ p_fret_position (p_fields p) ∧
     ∃ c, c ∈ captions ∧
       (p_chord_name (p_fields p), p_fret_position (p_fields p)) =
         components (composite c)).
Proof.
  intros Hq Hc p. unfold migrate.
  destruct (migration_quiet captions s Hq Hc)
    as (r1 & s1 & evs1 & m1 & -> & _ & _ & _ & _ & _ & _ & _ & _ & Hnew & _).
  simpl. intros Hp. destruct (Hnew p Hp) as [? | (c & Hin & ->)]; [by left|].
  right. split; [done|]. exists c. split; [done|].
  unfold fields_for. simpl. by destruct (components (composite c)).
Qed.

(** For captions without dashes, the rows the run added carry the caption's
    own name, position and composite name, and refer to the one variation of
    that name. *)
Lemma migrate_dashless captions s :
  quiet s → consistent s → (∀ c, c ∈ captions → dashless c) →
  ∀ p, p ∈ chord_positions (migrate captions s).2 →
    p ∈ chord_positions s ∨
    ∃ c v, c ∈ captions ∧
      p_chord_name (p_fields p) = chord_name c ∧
      p_fret_position (p_fields p) = fret_position c ∧
      chord_position_full_name (p_fields p) = composite c ∧
      filter (named (chord_name c)) (chord_variations (migrate captions s).2) = [v] ∧
      chord_variation_id (p_fields p) = Some (v_id v).
Proof.
  intros Hq Hc Hd p. unfold migrate.
  destruct (migration_quiet captions s Hq Hc)
    as (r1 & s1 & evs1 & m1 & -> & _ & [Hnd _] & _ & _ & _ & _ & _ & Hmap & Hnew & _).
  simpl. intros Hp. destruct (Hnew p Hp) as [? | (c & Hin & Hf)]; [by left|].
  right. destruct (Hmap c Hin) as (id & Hm & Hrow).
  destruct (filter_key v_chord_name (named (chord_name c)) (chord_variations s1)
              (chord_name c) (λ _, reflexivity _) Hnd)
    as [[_ Hn] | (v & Hv & Hvn & Hfv)].
  { exfalso. apply Hn. by apply (list_elem_of_fmap_2 v_chord_name _ _ Hrow). }
  assert ({| v_id := id; v_chord_name := chord_name c |} ∈
          filter (named (chord_name c)) (chord_variations s1)) as Hrow'
    by (by apply list_elem_of_filter).
  rewrite Hfv in Hrow'. apply list_elem_of_singleton in Hrow'. subst v.
  exists c, {| v_id := id; v_chord_name := chord_name c |}.
  rewrite Hf. unfold fields_for. rewrite components_composite by auto.
  simpl. by rewrite Hm.
Qed.

(** *** The sample data *)

(** C7. On the nine sample captions and empty tables the procedure sends
    six variation inserts and seven position inserts, all acknowledged, and
    leaves six variations (one per distinct chord name) and seven positions
    (one per distinct pair); the report prints these counts. *)
Theorem migrateChordData_sample_counts :
  length chordCaptionData = 9%nat ∧
  length (Js.unique (map chord_name chordCaptionData)) = 6%nat ∧
  length (remove_dups (map (λ c, (chord_name c, fret_position c)) chordCaptionData)) = 7%nat ∧
  omap inserted_variation (trace (migrateChordData empty_store).2) =
    ["D#"; "C"; "F7sus4"; "D"; "A"; "A#"] ∧
  length (omap inserted_position (trace (migrateChordData empty_store).2)) = 7%nat ∧
  filter (λ ev, is_insert ev = true ∧ failure ev ≠ None)
    (trace (migrateChordData empty_store).2) = [] ∧
  variation_names (migrateChordData empty_store).2 =
    ["D#"; "C"; "F7sus4"; "D"; "A"; "A#"] ∧
  position_pairs (migrateChordData empty_store).2 =
    [("D#", "Pos2"); ("D#", "Open"); ("C", "Open"); ("F7sus4", "Pos6");
     ("D", "Open"); ("A", "Pos1"); ("A#", "Pos3v2")] ∧
  (migrateChordData empty_store).1 =
    Completed {| variations_count := 6; positions_count := 7;
                 variations_listed := ["A"; "A#"; "C"; "D"; "D#"; "F7sus4"];
                 positions_listed :=
                   ["A-Pos1"; "A#-Pos3v2"; "C-Open"; "D-Open"; "D#-Open";
                    "D#-Pos2"; "F7sus4-Pos6"] |}.
Proof. repeat split; vm_compute; reflexivity. Qed.

(** *** Names that hold a dash *)

(** C4. In a run of [migrateChordData] from consistent tables with no error
    pending, every position row the run added holds the chord name and the
    fret position of one of the captions and is named
    "{chord_name}-{fret_position}" after them; and every caption has exactly
    one row of its chord name and fret position, so named unless it was there
    before the run. *)
Theorem migrateChordData_full_names s :
  quiet s → consistent s →
  (∀ p, p ∈ chord_positions (migrateChordData s).2 →
     p ∈ chord_positions s ∨
     ∃ c, c ∈ chordCaptionData ∧
       p_chord_name (p_fields p) = chord_name c ∧
       p_fret_position (p_fields p) = fret_position c ∧
       chord_position_full_name (p_fields p) =
         chord_name c ++ "-" ++ fret_position c) ∧
  (∀ c, c ∈ chordCaptionData →
     ∃ p, filter (placed (chord_name c) (fret_position c))
            (chord_positions (migrateChordData s).2) = [p] ∧
       (p ∈ chord_positions s ∨
        chord_position_full_name (p_fields p) =
          chord_name c ++ "-" ++ fret_position c)).
Proof.
  intros Hq Hc.
  assert (∀ c, c ∈ chordCaptionData → dashless c) as Hd
    by apply Forall_forall, sample_captions_dashless.
  assert (∀ p, p ∈ chord_positions (migrateChordData s).2 →
     p ∈ chord_positions s ∨
     ∃ c, c ∈ chordCaptionData ∧
       p_chord_name (p_fields p) = chord_name c ∧
       p_fret_position (p_fields p) = fret_position c ∧
       chord_position_full_name (p_fields p) =
         chord_name c ++ "-" ++ fret_position c) as Hrows.
  { intros p Hp.
    destruct (migrate_dashless chordCaptionData s Hq Hc Hd p Hp)
      as [? | (c & v & Hin & Hn & Hf & Hfull & _)]; [by left|].
    right. by exists c. }
  split; [exact Hrows|].
  intros c Hin. unfold migrateChordData, migrate in *.
  destruct (migration_quiet chordCaptionData s Hq Hc)
    as (r1 & s1 & evs1 & m1 & Heq & _ & [_ Hnd] & _ & _ & _ & _ & Hpairs & _).
  rewrite Heq in *. simpl in *.
  specialize (Hpairs c Hin). rewrite components_composite in Hpairs by auto.
  destruct (filter_key position_pair (placed (chord_name c) (fret_position c))
              (chord_positions s1) (chord_name c, fret_position c)
              (placed_pair _ _) Hnd)
    as [[_ Hn] | (p & Hp & Hpp & Hfp)]; [done|].
  exists p. split; [done|].
  destruct (Hrows p Hp) as [? | (c' & _ & Hn' & Hf' & Hfull)]; [by left|].
  right. rewrite Hfull. injection Hpp as <- <-. by rewrite Hn', Hf'.
Qed.

Lemma migrateChordData_full_names_witness :
  quiet empty_store ∧ consistent empty_store ∧
  ∃ p, filter (placed "A#" "Pos3v2")
         (chord_positions (migrateChordData empty_store).2) = [p] ∧
    (p ∈ chord_positions empty_store ∨
     chord_position_full_name (p_fields p) = "A#-Pos3v2").
Proof.
  assert (quiet empty_store) as Hq by reflexivity.
  assert (consistent empty_store) as Hc by (split; apply NoDup_nil_2).
  destruct (migrateChordData_full_names empty_store Hq Hc) as [_ Hone].
  refine (conj Hq (conj Hc _)).
  apply (Hone {| chord_name := "A#"; fret_position := "Pos3v2";
                 start_time := "4:24"; end_time := "4:34" |}).
  repeat constructor.
Defined.

(** C5. In a run of [migrateChordData] from consistent tables with no error
    pending, the variations table holds exactly one row for the chord name of
    each caption, and every position row the run added under that chord name
    has this row's key as its [chord_variation_id]. *)
Theorem migrateChordData_variation_keys s :
  quiet s → consistent s →
  ∀ c, c ∈ chordCaptionData →
    ∃ v, filter (named (chord_name c))
           (chord_variations (migrateChordData s).2) = [v] ∧
      ∀ p, p ∈ chord_positions (migrateChordData s).2 →
        p_chord_name (p_fields p) = chord_name c →
        p ∈ chord_positions s ∨
        chord_variation_id (p_fields p) = Some (v_id v).
Proof.
  intros Hq Hc c Hin.
  assert (∀ c, c ∈ chordCaptionData → dashless c) as Hd
    by apply Forall_forall, sample_captions_dashless.
  assert (∃ v, filter (named (chord_name c))
                 (chord_variations (migrateChordData s).2) = [v]) as [v Hv].
  { unfold migrateChordData, migrate.
    destruct (migration_quiet chordCaptionData s Hq Hc)
      as (r1 & s1 & evs1 & m1 & -> & _ & [Hnd _] & _ & _ & _ & Hnames & _).
    simpl.
    destruct (filter_key v_chord_name (named (chord_name c)) (chord_variations s1)
                (chord_name c) (λ _, reflexivity _) Hnd)
      as [[_ Hn] | (v & _ & _ & Hfv)]; [|by exists v].
    destruct Hn. by apply Hnames. }
  exists v. split; [done|].
  intros p Hp Hname.
  destruct (migrate_dashless chordCaptionData s Hq Hc Hd p Hp)
    as [? | (c' & v' & _ & Hn' & _ & _ & Hv' & Hid)]; [by left|].
  right. rewrite Hid. unfold migrateChordData in Hv.
  rewrite <- Hn', Hname, Hv in Hv'. by injection Hv' as ->.
Qed.

Lemma migrateChordData_variation_keys_witness :
  quiet empty_store ∧ consistent empty_store ∧
  ∃ v, filter (named "D#") (chord_variations (migrateChordData empty_store).2) = [v] ∧
    ∀ p, p ∈ chord_positions (migrateChordData empty_store).2 →
      p_chord_name (p_fields p) = "D#" →
      p ∈ chord_positions empty_store ∨
      chord_variation_id (p_fields p) = Some (v_id v).
Proof.
  assert (quiet empty_store) as Hq by reflexivity.
  assert (consistent empty_store) as Hc by (split; apply NoDup_nil_2).
  refine (conj Hq (conj Hc _)).
  apply (migrateChordData_variation_keys empty_store Hq Hc
           {| chord_name := "D#"; fret_position := "Pos2";
              start_time := "0:09"; end_time := "0:19" |}).
  constructor.
Defined.

(** The rows of the sample data, as the run leaves them in empty tables: the
    two positions of [D#] refer to the one variation [D#]. *)
Example migrateChordData_sample_rows :
  map (λ v, (v_chord_name v, v_id v))
    (chord_variations (migrateChordData empty_store).2) =
    [("D#", 1%nat); ("C", 2%nat); ("F7sus4", 3%nat); ("D", 4%nat);
     ("A", 5%nat); ("A#", 6%nat)] ∧
  map (λ p, (chord_position_full_name (p_fields p), chord_variation_id (p_fields p)))
    (chord_positions (migrateChordData empty_store).2) =
    [("D#-Pos2", Some 1%nat); ("D#-Open", Some 1%nat); ("C-Open", Some 2%nat);
     ("F7sus4-Pos6", Some 3%nat); ("D-Open", Some 4%nat); ("A-Pos1", Some 5%nat);
     ("A#-Pos3v2", Some 6%nat)].
Proof. split; vm_compute; reflexivity. Qed.

(** The key is split at its first dashes, so the two properties above rest
    on the chord names and fret positions of the data holding none.  With
    captions [Bm7/Open] and [Bm7-5/Open] in place of the data, the caption
    [Bm7-5/Open] is stored under chord [Bm7], fret [5], full name [Bm7-5], and
    no row is named [Bm7-5-Open]. *)
Example full_name_of_dashed_caption :
  composite the_dashed_caption = "Bm7-5-Open" ∧
  components (composite the_dashed_caption) = ("Bm7", "5") ∧
  map (λ p, chord_position_full_name (p_fields p))
    (chord_positions (migrate dashed_captions empty_store).2) =
    ["Bm7-Open"; "Bm7-5"] ∧
  composite the_dashed_caption ∉
    map (λ p, chord_position_full_name (p_fields p))
      (chord_positions (migrate dashed_captions empty_store).2).
Proof.
  repeat split; [vm_compute; reflexivity..|].
  apply (bool_decide_unpack _). vm_compute. exact I.
Qed.

(** For the same captions, the variation created for [Bm7-5] has key [2],
    and the position row that comes from the caption [Bm7-5/Open] refers to
    key [1], the variation [Bm7]. *)
Example variation_of_dashed_caption :
  map (λ v, (v_chord_name v, v_id v))
    (chord_variations (migrate dashed_captions empty_store).2) =
    [("Bm7", 1%nat); ("Bm7-5", 2%nat)] ∧
  map (λ p, (chord_position_full_name (p_fields p), chord_variation_id (p_fields p)))
    (chord_positions (migrate dashed_captions empty_store).2) =
    [("Bm7-Open", Some 1%nat); ("Bm7-5", Some 1%nat)].
Proof. split; vm_compute; reflexivity. Qed.

End MigrateProperties.

(** ** contexts/UserContext.js: the provider *)

Section ProviderProperties.
Import Supabase UserContext UserContextSpec ProviderSpec.

(** X1. [getDailySearchLimit] and [getFavoriteLimit] return the entry stored
    for the profile's tier whatever its value, [0] and the unlimited [-1]
    included, and [0] when there is none: limits unloaded, tier unset or
    empty, or tier not listed. *)
Theorem limits_or_zero_keep_entry (dailyLimits : option DailyLimits)
    (profile : option Profile) :
  getDailySearchLimit dailyLimits profile =
    default 0 (tier_entry daily_search_limits dailyLimits profile) ∧
  getFavoriteLimit dailyLimits profile =
    default 0 (tier_entry favorite_limits dailyLimits profile).
Proof.
  unfold getDailySearchLimit, getFavoriteLimit, tier_entry.
  destruct dailyLimits as [limits|]; [|done].
  destruct (tier_of profile) as [tier|]; [|done]. simpl.
  destruct (negb (String.eqb tier EmptyString)); [|done].
  by rewrite !or_number_zero.
Qed.

(** X2. [canSearch] holds exactly for an active status with a tier other
    than [freebird], and [hasPlanAccess] exactly for an active status with a
    tier that is set; so a profile with an active status and no tier may
    search without plan access, while [planType] reports it as [freebird]. *)
Theorem canSearch_and_plan_access (profile : option Profile) :
  (canSearch profile = true ↔
   status_of profile = Some "active" ∧ tier_of profile ≠ Some "freebird") ∧
  (hasPlanAccess profile = true ↔
   status_of profile = Some "active" ∧ Js.truthy_string (tier_of profile) = true) ∧
  (canSearch profile = true ∧ hasPlanAccess profile = false ↔
   status_of profile = Some "active" ∧ Js.truthy_string (tier_of profile) = false) ∧
  (canSearch profile = true ∧ hasPlanAccess profile = false →
   planType profile = "freebird").
Proof.
  assert (Hcan : canSearch profile = true ↔
    status_of profile = Some "active" ∧ tier_of profile ≠ Some "freebird").
  { unfold canSearch. rewrite andb_true_iff, negb_true_iff,
      bool_decide_eq_false, bool_decide_eq_true. tauto. }
  assert (Hplan : hasPlanAccess profile = true ↔
    status_of profile = Some "active" ∧ Js.truthy_string (tier_of profile) = true).
  { unfold hasPlanAccess. rewrite andb_true_iff, bool_decide_eq_true. tauto. }
  assert (Hgap : canSearch profile = true ∧ hasPlanAccess profile = false ↔
    status_of profile = Some "active" ∧ Js.truthy_string (tier_of profile) = false).
  { rewrite Hcan, <- not_true_iff_false, Hplan. split.
    - intros [[Hs Ht] Hn]. split; [done|].
      destruct (Js.truthy_string (tier_of profile)); [|done]. by destruct Hn.
    - intros [Hs Ht]. split; [split; [done|]|].
      + intros Hf. rewrite Hf in Ht. done.
      + intros [_ Ht']. congruence. }
  split; [done|]. split; [done|]. split; [done|].
  intros [_ Ht]%Hgap. unfold planType. by apply or_string_falsy.
Qed.

(** X3. A profile that [isPremium] accepts has the tier [premium], which the
    default limits do not list: it may search whenever its status is active,
    but under the default limits its search and favorite limits are [0], its
    watch time [60], and [checkDailySearchLimit] refuses it. *)
Theorem premium_tier_unlisted (profile : option Profile) :
  isPremium profile = true →
  canSearch profile = bool_decide (status_of profile = Some "active") ∧
  planType profile = "premium" ∧
  getDailySearchLimit (Some default_limits) profile = 0 ∧
  getFavoriteLimit (Some default_limits) profile = 0 ∧
  getDailyWatchTimeLimit (Some default_limits) profile = 60 ∧
  (0 ≤ dailySearchesUsed profile →
   checkDailySearchLimit (Some default_limits) profile = false).
Proof.
  unfold isPremium. intros Ht%bool_decide_eq_true.
  unfold canSearch, planType, getDailySearchLimit, getFavoriteLimit,
    getDailyWatchTimeLimit, checkDailySearchLimit, getDailySearchLimit.
  rewrite Ht. repeat split; try by vm_compute.
  intros Hused. change (Js.or_number _ 0) with 0 at 1. simpl.
  apply Z.ltb_ge. exact Hused.
Qed.

Lemma premium_tier_unlisted_witness :
  isPremium (Some (profile_of "premium" 2)) = true ∧
  canSearch (Some (profile_of "premium" 2)) = true ∧
  checkDailySearchLimit (Some default_limits) (Some (profile_of "premium" 2)) = false.
Proof.
  assert (isPremium (Some (profile_of "premium" 2)) = true) as H by reflexivity.
  destruct (premium_tier_unlisted _ H) as (Hc & _ & _ & _ & _ & Hcheck).
  split; [exact H|]. split; [rewrite Hc; reflexivity|].
  apply Hcheck. vm_compute. discriminate.
Defined.

(** X4. [fetchDailyLimits] keeps the limits complete: if the limits held
    before are unloaded or have all three categories, so are the limits it
    leaves, for every outcome of the query. *)
Theorem fetchDailyLimits_complete (fetched : Awaited SettingsRow)
    (dailyLimits : option DailyLimits) :
  complete dailyLimits → complete (fetchDailyLimits fetched dailyLimits).
Proof.
  intros Hc limits. unfold fetchDailyLimits.
  destruct fetched as [r|e]; [|by intros [= <-]; repeat split; eexists].
  destruct (error r); [by intros [= <-]; repeat split; eexists|].
  destruct (data r ≫= setting_value) as [sv|]; [|by apply Hc].
  by intros [= <-]; repeat split; eexists.
Qed.

Lemma fetchDailyLimits_complete_witness :
  complete None ∧ complete (fetchDailyLimits row_without_setting_value None) ∧
  complete (fetchDailyLimits (Thrown {| code := "500" |}) None).
Proof.
  assert (complete None) as H by (intros limits; discriminate).
  split; [exact H|].
  split; apply (fetchDailyLimits_complete _ None H).
Defined.

(** X5. Without a stored search entry for the profile's tier (limits
    unloaded, tier unset, tier not listed) and with a used count that is not
    negative, [checkDailySearchLimit] refuses. *)
Theorem checkDailySearchLimit_denied_without_entry
    (dailyLimits : option DailyLimits) (profile : option Profile) :
  tier_entry daily_search_limits dailyLimits profile = None →
  0 ≤ dailySearchesUsed profile →
  checkDailySearchLimit dailyLimits profile = false.
Proof.
  intros He Hused. unfold checkDailySearchLimit.
  assert (getDailySearchLimit dailyLimits profile = 0) as ->.
  { unfold getDailySearchLimit, tier_entry in *.
    destruct dailyLimits as [limits|]; [|done].
    destruct (tier_of profile) as [tier|]; [|done]. simpl in *.
    destruct (negb (String.eqb tier EmptyString)); [|done]. by rewrite He. }
  simpl. by apply Z.ltb_ge.
Qed.

Lemma checkDailySearchLimit_denied_without_entry_witness :
  tier_entry daily_search_limits None (Some (profile_of "hero" 0)) = None ∧
  checkDailySearchLimit None (Some (profile_of "hero" 0)) = false.
Proof.
  split; [reflexivity|].
  apply checkDailySearchLimit_denied_without_entry; [reflexivity|].
  vm_compute. discriminate.
Defined.

(** X6. [checkDailySearchLimit] is antitone in the used count: a profile of
    the same tier that has used no more searches is allowed whenever the
    other one is. *)
Theorem checkDailySearchLimit_antitone (dailyLimits : option DailyLimits)
    (profile profile' : option Profile) :
  tier_of profile' = tier_of profile →
  dailySearchesUsed profile' ≤ dailySearchesUsed profile →
  checkDailySearchLimit dailyLimits profile = true →
  checkDailySearchLimit dailyLimits profile' = true.
Proof.
  intros Ht Hused. unfold checkDailySearchLimit, getDailySearchLimit.
  rewrite Ht.
  destruct (_ =? -1); [done|].
  rewrite !Z.ltb_lt. lia.
Qed.

Lemma checkDailySearchLimit_antitone_witness :
  checkDailySearchLimit (Some default_limits) (Some (profile_of "roadie" 5)) = true.
Proof.
  apply (checkDailySearchLimit_antitone (Some default_limits)
           (Some (profile_of "roadie" 23)) (Some (profile_of "roadie" 5)));
    [reflexivity | vm_compute; discriminate | reflexivity].
Defined.

(** X7. [fetchUserProfile] never unloads a profile: a failed or empty fetch
    keeps the profile held, the profile changes only to a row that came
    without an error, [loading] is [false] once a fetch for a user id has
    settled, and without a user id nothing changes. *)
Theorem fetchUserProfile_settled_profile (userId : option string)
    (fetched : Awaited Profile) (st : ProfileState) :
  (is_Some (st_profile st) →
   is_Some (st_profile (fetchUserProfile_settled userId fetched st))) ∧
  (Js.truthy_string userId = true →
   st_loading (fetchUserProfile_settled userId fetched st) = false) ∧
  (Js.truthy_string userId = false →
   fetchUserProfile_settled userId fetched st = st) ∧
  (st_profile (fetchUserProfile_settled userId fetched st) ≠ st_profile st →
   ∃ row, fetched = profile_fetched row ∧
     st_profile (fetchUserProfile_settled userId fetched st) = Some row).
Proof.
  unfold fetchUserProfile_settled, profile_fetched.
  destruct (Js.truthy_string userId); simpl; [|by repeat split].
  destruct fetched as [[[row|] [e|]]|e]; simpl; repeat split; try done.
  intros _. by exists row.
Qed.

Lemma fetchUserProfile_settled_profile_witness :
  is_Some (st_profile (fetchUserProfile_settled (Some "u1") fetch_refused
                         (loaded (profile_of "roadie" 3)))) ∧
  st_loading (fetchUserProfile_settled (Some "u1") fetch_refused
                {| st_profile := None; st_loading := true |}) = false.
Proof.
  split.
  - apply (fetchUserProfile_settled_profile (Some "u1") fetch_refused
             (loaded (profile_of "roadie" 3))). by eexists.
  - apply (fetchUserProfile_settled_profile (Some "u1") fetch_refused
             {| st_profile := None; st_loading := true |}). reflexivity.
Defined.




Lemma resets_of_resetDailySearchCount user profile answer :
  (length (filter (λ c, c = reset_call)
             (resetDailySearchCount user profile answer)) ≤ 1)%nat.
Proof.
  unfold resetDailySearchCount.
  destruct (negb _); [simpl; lia|].
  rewrite filter_cons_True by done. simpl.
  assert (filter (λ c, c = reset_call)
            match answer with
            | Resolved r => match error r with
                            | None => refreshProfile profile
                            | Some _ => []
                            end
            | Thrown _ => []
            end = []) as ->; [|simpl; lia].
  destruct answer as [r|e]; [|done]. destruct (error r); [done|].
  unfold refreshProfile, fetchUserProfile.
  destruct (profile ≫= id) as [pid|]; [|done].
  by destruct (Js.truthy_string (Some pid)).
Qed.

Lemma resets_of_afterRender cal user profile answer previous :
  (length (filter (λ c, c = reset_call)
             (afterRender cal user profile answer previous).1) ≤ 1)%nat.
Proof.
  unfold afterRender, dailyResetEffect. cbn [fst].
  repeat case_match; try (cbn; lia).
  apply resets_of_resetDailySearchCount.
Qed.

Lemma afterRenders_unchanged renders d :
  (∀ r, r ∈ renders → r_profile r ≫= last_search_reset = d) →
  afterRenders renders (Some d) = [].
Proof.
  induction renders as [|r rest IH]; intros Hd; [done|].
  simpl. rewrite (Hd r) by (by left). simpl.
  rewrite bool_decide_eq_true_2 by done. simpl.
  apply IH. intros r' Hr'. apply Hd. by right.
Qed.

(** X9. Over any sequence of renders whose [last_search_reset] is the same,
    whatever else changes between them, the reset procedure is called at
    most once. *)
Theorem reset_once_per_value (renders : list Render)
    (previous : option (option string)) (d : option string) :
  (∀ r, r ∈ renders → r_profile r ≫= last_search_reset = d) →
  (length (filter (λ c, c = reset_call) (afterRenders renders previous)) ≤ 1)%nat.
Proof.
  destruct renders as [|r rest]; intros Hd; [simpl; lia|].
  pose proof (resets_of_afterRender (r_calendar r) (r_user r) (r_profile r)
                (r_answer r) previous) as Hone.
  simpl. unfold afterRender in *. simpl in *.
  rewrite (Hd r) in * by (by left).
  rewrite afterRenders_unchanged by (intros r' Hr'; apply Hd; by right).
  by rewrite app_nil_r.
Qed.

Lemma reset_once_per_value_witness :
  (length (filter (λ c, c = reset_call)
             (afterRenders [stale_render "2024-05-02"; stale_render "2024-05-02";
                            stale_render "2024-05-03"] None)) ≤ 1)%nat.
Proof.
  apply (reset_once_per_value _ None (Some "2024-05-01T22:10:00")).
  intros r Hr. repeat (apply elem_of_cons in Hr as [-> | Hr]; [reflexivity|]).
  by apply elem_of_nil in Hr.
Defined.

Example stale_renders_reset_once :
  afterRenders [stale_render "2024-05-02"; stale_render "2024-05-02";
                stale_render "2024-05-03"] None = [reset_call].
Proof. reflexivity. Qed.

(** X10. For a user without an id the user effect sends nothing and clears
    the profile, and with no profile every exposed value is the one without
    access, whatever the limits are. *)
Theorem signed_out_no_access (user : option User) (fetched : Awaited Profile)
    (st : ProfileState) (dailyLimits : option DailyLimits) :
  Js.truthy_string (user ≫= user_id) = false →
  (userEffect user fetched st).1 = [] ∧
  st_profile (userEffect user fetched st).2 = None ∧
  st_loading (userEffect user fetched st).2 = st_loading st ∧
  canSearch None = false ∧ hasPlanAccess None = false ∧ isPremium None = false ∧
  planType None = "freebird" ∧ planStatus None = None ∧ userEmail None = None ∧
  userName None = "User" ∧ dailySearchesUsed None = 0 ∧
  searchLimit dailyLimits None = 0 ∧
  checkDailySearchLimit dailyLimits None = false ∧
  getFavoriteLimit dailyLimits None = 0 ∧
  getDailyWatchTimeLimit dailyLimits None = 60.
Proof.
  intros Hu. unfold userEffect. rewrite Hu. simpl.
  by destruct dailyLimits.
Qed.

Lemma signed_out_no_access_witness :
  st_profile (userEffect signed_out fetch_refused (loaded (profile_of "hero" 1))).2 = None.
Proof.
  apply (signed_out_no_access signed_out fetch_refused (loaded (profile_of "hero" 1)) None).
  reflexivity.
Defined.

(** X11. Running [fetchDailyLimits] again on the same outcome changes
    nothing, and the limits it leaves depend on the limits before only when
    the row came without an error and without a [setting_value], in which
    case they are the limits before. *)
Theorem fetchDailyLimits_settles (fetched : Awaited SettingsRow)
    (dailyLimits dailyLimits' : option DailyLimits) :
  fetchDailyLimits fetched (fetchDailyLimits fetched dailyLimits) =
    fetchDailyLimits fetched dailyLimits ∧
  (fetchDailyLimits fetched dailyLimits = fetchDailyLimits fetched dailyLimits' ∨
   (∃ r, fetched = Resolved r ∧ error r = None ∧ data r ≫= setting_value = None) ∧
   fetchDailyLimits fetched dailyLimits = dailyLimits).
Proof.
  unfold fetchDailyLimits. destruct fetched as [r|e]; [|by split; [|left]].
  destruct (error r) eqn:He; [by split; [|left]|].
  destruct (data r ≫= setting_value) as [sv|] eqn:Hsv; [by split; [|left]|].
  split; [done|]. right. split; [|done]. by exists r.
Qed.

Example canSearch_without_tier :
  let profile := Some {| id := Some "u3"; email := None; full_name := None;
                         subscription_tier := None;
                         subscription_status := Some "active";
                         daily_searches_used := None; last_search_reset := None |} in
  canSearch profile = true ∧ hasPlanAccess profile = false ∧
  planType profile = "freebird".
Proof. by vm_compute. Qed.
End ProviderProperties.

(** ** scripts/migrate-chord-data.js: further properties *)

Section SeedProperties.
Import Supabase Migrate MigrateSpec SeedSpec.

Lemma set_from_sublist seen xs : Js.set_from seen xs `sublist_of` xs.
Proof.
  revert seen. induction xs as [|x rest IH]; intros seen; simpl; [done|].
  case_bool_decide; [by apply sublist_cons | by apply sublist_skip].
Qed.

Lemma set_from_fresh seen xs :
  NoDup xs → (∀ x, x ∈ xs → x ∉ seen) → Js.set_from seen xs = xs.
Proof.
  revert seen. induction xs as [|x rest IH]; intros seen Hnd Hfresh; simpl; [done|].
  apply NoDup_cons in Hnd as [Hx Hnd].
  rewrite bool_decide_eq_false_2 by (apply Hfresh; by left).
  f_equal. apply IH; [done|].
  intros y Hy [-> | Hin]%elem_of_cons; [done|].
  by apply (Hfresh y); [right|].
Qed.

Lemma set_from_ext seen seen' xs :
  (∀ x, x ∈ seen ↔ x ∈ seen') → Js.set_from seen xs = Js.set_from seen' xs.
Proof.
  revert seen seen'. induction xs as [|x rest IH]; intros seen seen' Heq; simpl; [done|].
  rewrite (bool_decide_ext (x ∈ seen) (x ∈ seen')) by apply Heq.
  case_bool_decide; [by apply IH|]. f_equal. apply IH.
  intros y. rewrite !elem_of_cons, Heq. done.
Qed.

(** X12. [[...new Set(xs)]] has no duplicates and the same elements as
    [xs], keeps them in the order of [xs] starting with its first element,
    is unchanged by a second pass, and is [xs] itself when [xs] has no
    duplicates. *)
Theorem unique_is_first_occurrences (xs : list string) :
  NoDup (Js.unique xs) ∧
  (∀ x, x ∈ Js.unique xs ↔ x ∈ xs) ∧
  Js.unique xs `sublist_of` xs ∧
  head (Js.unique xs) = head xs ∧
  Js.unique (Js.unique xs) = Js.unique xs ∧
  (NoDup xs → Js.unique xs = xs).
Proof.
  split; [apply unique_NoDup|]. split; [apply unique_elem|].
  split; [apply set_from_sublist|]. split; [by destruct xs|].
  split.
  - apply set_from_fresh; [apply unique_NoDup | by intros x _ ?%elem_of_nil].
  - intros Hnd. apply set_from_fresh; [done | by intros x _ ?%elem_of_nil].
Qed.

Lemma unique_is_first_occurrences_witness :
  Js.unique ["a"; "b"; "c"] = ["a"; "b"; "c"].
Proof.
  apply (unique_is_first_occurrences ["a"; "b"; "c"]).
  repeat (apply NoDup_cons; split; [by apply (bool_decide_unpack _)|]).
  apply NoDup_nil_2.
Defined.

Lemma before_first_without sep s : contains sep (before_first sep s) = false.
Proof.
  induction s as [|c rest IH]; simpl; [done|].
  destruct (Ascii.eqb c sep) eqn:Hc; simpl; [done|]. by rewrite Hc, IH.
Qed.

(** X13. Splitting a caption's key gives back its chord name and fret
    position exactly when neither holds a dash. *)
Theorem components_composite_iff (c : ChordCaption) :
  components (composite c) = (chord_name c, fret_position c) ↔ dashless c.
Proof.
  split; [|apply components_composite].
  intros Hc.
  pose proof (split_head "-" (composite c)) as Hhead.
  pose proof (split_composite c) as Hlen.
  unfold components in Hc.
  destruct (Js.split "-" (composite c)) as [|a [|b rest]] eqn:Hs;
    simpl in Hlen; [lia | lia |].
  injection Hc as -> ->. simpl in Hhead. injection Hhead as Hname.
  assert (contains "-" (chord_name c) = false) as Hn
    by (rewrite Hname; apply before_first_without).
  split; [done|].
  unfold composite in Hs.
  change ("-" ++ fret_position c) with (String "-" (fret_position c)) in Hs.
  rewrite split_at_first in Hs by done. injection Hs as Hs.
  pose proof (split_head "-" (fret_position c)) as Hhead.
  rewrite Hs in Hhead. simpl in Hhead. injection Hhead as Hfret.
  rewrite Hfret. apply before_first_without.
Qed.

(** X14. Captions without dashes that have the same key have the same chord
    name and fret position: deduplicating keys deduplicates pairs. *)
Theorem composite_distinguishes_dashless (c1 c2 : ChordCaption) :
  dashless c1 → dashless c2 → composite c1 = composite c2 →
  chord_name c1 = chord_name c2 ∧ fret_position c1 = fret_position c2.
Proof.
  intros H1 H2 Heq.
  pose proof (components_composite c1 H1) as Hc1.
  pose proof (components_composite c2 H2) as Hc2.
  rewrite Heq, Hc2 in Hc1. by injection Hc1.
Qed.

Lemma composite_distinguishes_dashless_witness :
  chord_name (caption "D" "Open") = chord_name later_caption ∧
  fret_position (caption "D" "Open") = fret_position later_caption.
Proof.
  apply composite_distinguishes_dashless; [by split | by split | reflexivity].
Defined.

Example composite_collides_with_dashes :
  composite (caption "A-B" "C") = composite (caption "A" "B-C") ∧
  components (composite (caption "A-B" "C")) = ("A", "B").
Proof. by split. Qed.

(** X15. A run fails only because a call did: if it ends with a store
    error, its last call is a lookup or an insert answered with that error
    (not a lookup answered with [PGRST116]); if it ends with a [TypeError], a
    read of step 4 was answered with an error. *)
Theorem migrate_failure_justified captions s :
  justified (events_since s (migrate captions s).2) (failure_of (migrate captions s).1).
Proof.
  destruct (traced_migration captions s) as (evs & Ht & Hj).
  unfold migrate, events_since.
  destruct (migration captions s) as [[report|x] s'] eqn:Heq; simpl in *;
    [done|]. by rewrite Ht, drop_app_length.
Qed.

(** All rows are written, then the first read of step 4 fails: the run is
    reported as failed. *)
Example migrateChordData_unreadable :
  (migrateChordData (flaky 26)).1 = Failed (TypeError "variations is null") ∧
  length (chord_variations (migrateChordData (flaky 26)).2) = 6%nat ∧
  length (chord_positions (migrateChordData (flaky 26)).2) = 7%nat.
Proof. repeat split; vm_compute; reflexivity. Qed.

Lemma by_chord_name_total : Total by_chord_name.
Proof. intros v1 v2. unfold by_chord_name. apply String.le_total. Qed.

Lemma by_name_and_position_total : Total by_name_and_position.
Proof.
  intros p1 p2. unfold by_name_and_position.
  repeat case_decide; try congruence; apply String.le_total.
Qed.

Lemma verify_report s :
  reports
    {| variations_count := length (merge_sort by_chord_name (chord_variations s));
       positions_count := length (merge_sort by_name_and_position (chord_positions s));
       variations_listed :=
         map v_chord_name (merge_sort by_chord_name (chord_variations s));
       positions_listed :=
         map (λ p, chord_position_full_name (p_fields p))
           (merge_sort by_name_and_position (chord_positions s)) |} s.
Proof.
  unfold reports. simpl.
  split; [apply Permutation_length, merge_sort_Permutation|].
  split; [apply Permutation_length, merge_sort_Permutation|].
  split; [apply Permutation_map, merge_sort_Permutation|].
  split.
  - apply Sorted_fmap with (R1 := by_chord_name); [done|].
    apply (Sorted_merge_sort _ (Total0 := by_chord_name_total)).
  - exists (merge_sort by_name_and_position (chord_positions s)).
    split; [apply merge_sort_Permutation|].
    split; [apply (Sorted_merge_sort _ (Total0 := by_name_and_position_total)) | done].
Qed.

(** X16. Step 4 sends the two reads, whatever the first is answered with,
    and changes no table; it throws nothing but a [TypeError], and only if a
    read failed; otherwise it reports the sizes of the tables and their
    names in the order asked for. *)
Theorem verify_reads_only s :
  chord_variations (verify s).2 = chord_variations s ∧
  chord_positions (verify s).2 = chord_positions s ∧
  map request (events_since s (verify s).2) =
    [SelectAllVariations; SelectAllPositions] ∧
  match (verify s).1 with
  | Ok report =>
      reports report s ∧
      Forall (λ ev, failure ev = None) (events_since s (verify s).2)
  | Throw (TypeError _) =>
      Exists (λ ev, failure ev ≠ None) (events_since s (verify s).2)
  | Throw (Raised _) => False
  end.
Proof.
  unfold events_since, verify, bind, await, select_all_variations,
    select_all_positions, call, ret, throw.
  repeat (case_match; simpl in *; simplify_eq);
    repeat match goal with |- _ ∧ _ => split end; simpl;
    rewrite <- ?app_assoc, ?drop_app_length; simpl; try done;
    try apply verify_report;
    try (by repeat constructor);
    try (by apply Exists_cons_hd);
    try (by apply Exists_cons_tl, Exists_cons_hd).
Qed.

(** X17. With no captions the procedure sends only the two reads of step 4
    and changes no table; with no error pending it completes and reports the
    tables as they are, in the order asked for. *)
Theorem migrate_no_captions s :
  chord_variations (migrate [] s).2 = chord_variations s ∧
  chord_positions (migrate [] s).2 = chord_positions s ∧
  map request (events_since s (migrate [] s).2) =
    [SelectAllVariations; SelectAllPositions] ∧
  (quiet s →
   ∃ report, (migrate [] s).1 = Completed report ∧ reports report s).
Proof.
  split; [|split; [|split]].
  4: { intros Hq. unfold migrate, migration. simpl. unfold bind, ret. simpl.
       unfold verify, bind, await, select_all_variations, select_all_positions.
       rewrite call_quiet by done. simpl.
       rewrite call_quiet by (unfold quiet in *; simpl; by rewrite Hq). simpl.
       eexists. split; [reflexivity | apply verify_report]. }
  all: unfold migrate, migration; simpl; unfold bind, ret; simpl;
    unfold events_since, verify, bind, await, select_all_variations,
      select_all_positions, call, ret, throw;
    repeat (case_match; simpl in *; simplify_eq);
    simpl; rewrite <- ?app_assoc, ?drop_app_length; done.
Qed.

Lemma migrate_no_captions_witness :
  quiet empty_store ∧ failure_of (migrate [] empty_store).1 = None.
Proof.
  assert (quiet empty_store) as Hq by reflexivity.
  split; [exact Hq|].
  destruct (migrate_no_captions empty_store) as (_ & _ & _ & Hdone).
  destruct (Hdone Hq) as (report & -> & _). reflexivity.
Defined.

(** X18. A run from a store with no error pending keeps the uniqueness of
    chord names and of (name, position) pairs, for any captions, and keeps
    the rows that were there, in place. *)
Theorem migrate_keeps_consistent captions s :
  quiet s → consistent s →
  quiet (migrate captions s).2 ∧ consistent (migrate captions s).2 ∧
  chord_variations s `prefix_of` chord_variations (migrate captions s).2 ∧
  chord_positions s `prefix_of` chord_positions (migrate captions s).2.
Proof.
  intros Hq Hc. unfold migrate.
  by destruct (migration_quiet captions s Hq Hc)
    as (r1 & s1 & evs1 & m1 & -> & Hq1 & Hc1 & _ & Hv & Hp & _).
Qed.

Lemma migrate_keeps_consistent_witness :
  consistent (migrate dashed_captions empty_store).2.
Proof.
  apply (migrate_keeps_consistent dashed_captions empty_store);
    [reflexivity | split; apply NoDup_nil_2].
Defined.

(** X19. In a run from a consistent store with no error pending, every
    position row added either refers to a variation row of the row's own
    chord name, or has no variation id, and then no caption has that chord
    name. *)
Theorem migrate_variation_reference captions s :
  quiet s → consistent s →
  ∀ p, p ∈ chord_positions (migrate captions s).2 →
    p ∈ chord_positions s ∨
    match chord_variation_id (p_fields p) with
    | Some key =>
        {| v_id := key; v_chord_name := p_chord_name (p_fields p) |} ∈
          chord_variations (migrate captions s).2
    | None => ∀ c, c ∈ captions → chord_name c ≠ p_chord_name (p_fields p)
    end.
Proof.
  intros Hq [Hndv Hndp] p. unfold migrate, migration, bind.
  destruct (variations_loop_quiet (Js.unique (map chord_name captions)) ∅ s Hq Hndv)
    as (m & s1 & evs1 & -> & Hq1 & _ & Hp1 & _ & _ & _ & Hmap & Hother & _).
  assert (NoDup (position_pairs s1)) as Hndp1 by (unfold position_pairs; by rewrite Hp1).
  destruct (positions_loop_quiet m (Js.unique (map composite captions)) tt s1 Hq1 Hndp1)
    as (s2 & evs2 & -> & Hq2 & _ & Hv2 & _ & _ & _ & Hnew & _).
  destruct (verify_quiet s2 Hq2) as (report & s3 & evs3 & -> & _ & _ & Hv3 & Hp3 & _).
  simpl. rewrite Hp3, Hv3, Hv2. intros Hp.
  destruct (Hnew p Hp) as [Hold | (k & _ & ->)]; [left; by rewrite <- Hp1|].
  right. unfold fields_for. simpl.
  destruct (decide ((components k).1 ∈ Js.unique (map chord_name captions)))
    as [Hin | Hnin].
  - destruct (Hmap _ Hin) as (key & -> & Hrow). done.
  - rewrite (Hother _ Hnin), lookup_empty. intros c Hc Heq. apply Hnin.
    apply unique_elem. rewrite <- Heq. by apply (list_elem_of_fmap_2 chord_name).
Qed.

Lemma migrate_variation_reference_witness :
  quiet empty_store ∧ consistent empty_store ∧
  chord_variation_id (new_position None "Bm7" "5") = None ∧
  chord_name (caption "Bm7-5" "Open") ≠ p_chord_name (new_position None "Bm7" "5").
Proof.
  assert (quiet empty_store) as Hq by reflexivity.
  assert (consistent empty_store) as Hc by (split; apply NoDup_nil_2).
  split; [exact Hq|]. split; [exact Hc|]. split; [reflexivity|].
  destruct (migrate_variation_reference [caption "Bm7-5" "Open"] empty_store Hq Hc
              {| p_id := 1; p_fields := new_position None "Bm7" "5" |})
    as [Hold | Hnew].
  - apply list_elem_of_singleton. reflexivity.
  - by apply elem_of_nil in Hold.
  - apply Hnew. apply list_elem_of_singleton. reflexivity.
Defined.

Lemma variations_loop_names names : ∀ m s,
  quiet s → NoDup (variation_names s) →
  variation_names (for_of names upsert_variation m s).2 =
    (variation_names s ++ Js.set_from (variation_names s) names)%list.
Proof.
  induction names as [|n rest IH]; intros m s Hq Hnd; simpl.
  - by rewrite app_nil_r.
  - unfold bind.
    destruct (upsert_variation_quiet m n s Hq Hnd)
      as (key & s1 & evs1 & -> & Hq1 & _ & _ & _ & Hcase).
    destruct Hcase as [(Hn & Hv1 & _) | (Hn & Hv1)].
    + rewrite bool_decide_eq_true_2 by done.
      assert (variation_names s1 = variation_names s) as Hnames
        by (unfold variation_names; by rewrite Hv1).
      rewrite IH by (by rewrite ?Hnames). by rewrite Hnames.
    + rewrite bool_decide_eq_false_2 by done.
      assert (variation_names s1 = (variation_names s ++ [n])%list) as Hnames
        by (unfold variation_names; by rewrite Hv1, map_app).
      rewrite IH; [|done|].
      * rewrite Hnames, <- app_assoc. simpl. do 2 f_equal.
        apply set_from_ext. intros x. rewrite elem_of_app, !elem_of_cons, elem_of_nil. tauto.
      * rewrite Hnames. apply NoDup_app. split; [done|].
        split; [|apply NoDup_singleton].
        by intros x Hx ->%list_elem_of_singleton.
Qed.

Lemma plain_key_present k s :
  plain_key k → Forall plain_row (chord_positions s) →
  components k ∈ position_pairs s ↔ k ∈ full_names s.
Proof.
  intros (c & Hc & ->) Hrows. rewrite components_composite by done.
  unfold position_pairs, full_names. rewrite Forall_forall in Hrows. split.
  - intros (p & Hpair & Hp)%(list_elem_of_fmap position_pair).
    destruct (Hrows p Hp) as (c' & Hc' & Hpair' & Hfull).
    rewrite Hpair' in Hpair. injection Hpair as Hn Hf.
    apply (list_elem_of_fmap (λ p, chord_position_full_name (p_fields p))).
    exists p. split; [|done]. rewrite Hfull. unfold composite. by rewrite Hn, Hf.
  - intros (p & Hfull & Hp)%(list_elem_of_fmap
                               (λ p, chord_position_full_name (p_fields p))).
    destruct (Hrows p Hp) as (c' & Hc' & Hpair' & Hfull').
    apply (list_elem_of_fmap position_pair). exists p. split; [|done].
    rewrite Hpair', <- (components_composite c' Hc'), <- Hfull', <- Hfull.
    by rewrite components_composite.
Qed.

Lemma positions_loop_names m keys : ∀ u s,
  quiet s → NoDup (position_pairs s) → Forall plain_row (chord_positions s) →
  (∀ k, k ∈ keys → plain_key k) →
  full_names (for_of keys (upsert_position m) u s).2 =
    (full_names s ++ Js.set_from (full_names s) keys)%list ∧
  Forall plain_row (chord_positions (for_of keys (upsert_position m) u s).2).
Proof.
  induction keys as [|k rest IH]; intros u s Hq Hnd Hrows Hkeys; simpl.
  - by rewrite app_nil_r.
  - unfold bind.
    destruct (upsert_position_quiet m u k s Hq Hnd)
      as (s1 & evs1 & -> & Hq1 & _ & _ & Hcase).
    assert (plain_key k) as Hk by (apply Hkeys; by left).
    assert (∀ k', k' ∈ rest → plain_key k') as Hrest
      by (intros k' Hk'; apply Hkeys; by right).
    destruct Hcase as [(Hin & Hp1 & _) | (Hin & key & Hp1)].
    + rewrite bool_decide_eq_true_2 by (by apply (plain_key_present k s)).
      assert (full_names s1 = full_names s) as Hnames
        by (unfold full_names; by rewrite Hp1).
      destruct (IH tt s1) as [IHn IHr];
        [done | unfold position_pairs; by rewrite Hp1 | by rewrite Hp1 | done |].
      by rewrite IHn, Hnames.
    + rewrite bool_decide_eq_false_2
        by (intros ?; apply Hin; by apply (plain_key_present k s)).
      destruct Hk as (c & Hc & ->).
      assert (fields_for m (composite c) =
              new_position (m !! chord_name c) (chord_name c) (fret_position c))
        as Hfields by (unfold fields_for; by rewrite components_composite).
      rewrite Hfields in Hp1.
      assert (full_names s1 = (full_names s ++ [composite c])%list) as Hnames
        by (unfold full_names; by rewrite Hp1, map_app).
      destruct (IH tt s1) as [IHn IHr]; [done | | | done |].
      * unfold position_pairs. rewrite Hp1, map_app. simpl.
        apply NoDup_app. split; [done|]. split; [|apply NoDup_singleton].
        intros x Hx ->%list_elem_of_singleton. apply Hin.
        by rewrite components_composite.
      * rewrite Hp1. apply Forall_app. split; [done|].
        apply Forall_singleton. by exists c.
      * split; [|done]. rewrite IHn, Hnames, <- app_assoc. simpl. do 2 f_equal.
        apply set_from_ext. intros x. rewrite elem_of_app, !elem_of_cons, elem_of_nil. tauto.
Qed.

(** X20. On empty tables and with no error pending, for captions without
    dashes, a run leaves the distinct chord names as the variations and the
    distinct keys as the positions' composite names, each once and in order
    of first occurrence, and reports their numbers. *)
Theorem migrate_seeds_distinct captions s :
  quiet s → chord_variations s = [] → chord_positions s = [] →
  (∀ c, c ∈ captions → dashless c) →
  variation_names (migrate captions s).2 = Js.unique (map chord_name captions) ∧
  full_names (migrate captions s).2 = Js.unique (map composite captions) ∧
  Forall plain_row (chord_positions (migrate captions s).2) ∧
  ∃ report, (migrate captions s).1 = Completed report ∧
    variations_count report = length (Js.unique (map chord_name captions)) ∧
    positions_count report = length (Js.unique (map composite captions)).
Proof.
  intros Hq Hv0 Hp0 Hd.
  assert (NoDup (variation_names s)) as Hndv
    by (unfold variation_names; rewrite Hv0; apply NoDup_nil_2).
  assert (NoDup (position_pairs s)) as Hndp
    by (unfold position_pairs; rewrite Hp0; apply NoDup_nil_2).
  pose proof (variations_loop_names (Js.unique (map chord_name captions)) ∅ s Hq Hndv)
    as Hnames.
  unfold migrate, migration, bind.
  destruct (variations_loop_quiet (Js.unique (map chord_name captions)) ∅ s Hq Hndv)
    as (m & s1 & evs1 & Hloop1 & Hq1 & _ & Hp1 & _).
  rewrite Hloop1 in *. simpl in Hnames.
  assert (NoDup (position_pairs s1)) as Hndp1 by (unfold position_pairs; by rewrite Hp1).
  assert (Forall plain_row (chord_positions s1)) as Hrows1
    by (rewrite Hp1, Hp0; constructor).
  assert (∀ k, k ∈ Js.unique (map composite captions) → plain_key k) as Hkeys.
  { intros k Hk. apply (proj1 (unique_elem _ _)) in Hk.
    apply (list_elem_of_fmap composite) in Hk as (c & -> & Hc).
    exists c. split; [by apply Hd | done]. }
  destruct (positions_loop_names m (Js.unique (map composite captions)) tt s1
              Hq1 Hndp1 Hrows1 Hkeys) as [Hfull Hrows2].
  destruct (positions_loop_quiet m (Js.unique (map composite captions)) tt s1 Hq1 Hndp1)
    as (s2 & evs2 & Hloop2 & Hq2 & _ & Hv2 & _).
  rewrite Hloop2 in *. simpl in Hfull, Hrows2.
  destruct (verify_quiet s2 Hq2)
    as (report & s3 & evs3 & -> & _ & _ & Hv3 & Hp3 & _ & Hcv & Hcp).
  simpl.
  assert (variation_names s3 = Js.unique (map chord_name captions)) as Hvn.
  { unfold variation_names in *. rewrite Hv3, Hv2, Hnames, Hv0. simpl.
    apply set_from_fresh; [apply unique_NoDup | by intros x _ ?%elem_of_nil]. }
  assert (full_names s3 = Js.unique (map composite captions)) as Hfn.
  { unfold full_names in *. rewrite Hp3, Hfull, Hp1, Hp0. simpl.
    apply set_from_fresh; [apply unique_NoDup | by intros x _ ?%elem_of_nil]. }
  split; [done|]. split; [done|]. split; [by rewrite Hp3|].
  exists report. split; [done|]. split.
  - rewrite Hcv, <- Hv3, <- Hvn. unfold variation_names. by rewrite length_map.
  - rewrite Hcp, <- Hp3, <- Hfn. unfold full_names. by rewrite length_map.
Qed.

Lemma migrate_seeds_distinct_witness :
  variation_names (migrate [caption "D" "Open"; caption "D" "Pos2"; later_caption]
                     empty_store).2 = ["D"] ∧
  full_names (migrate [caption "D" "Open"; caption "D" "Pos2"; later_caption]
                empty_store).2 = ["D-Open"; "D-Pos2"].
Proof.
  destruct (migrate_seeds_distinct
              [caption "D" "Open"; caption "D" "Pos2"; later_caption] empty_store)
    as (Hv & Hf & _); [reflexivity | reflexivity | reflexivity | | by split].
  intros c Hc. repeat (apply elem_of_cons in Hc as [-> | Hc]; [by split|]).
  by apply elem_of_nil in Hc.
Defined.
End SeedProperties.
